(** * The comment section of the blog: thread builder and submit handlers

    A shallow embedding of the [Comments] component
    (src/unnamed/part_003): the pure tree builder [organizeComments],
    the page loader [fetchComments] and the two submit handlers
    [handleSubmit] and [handleReplySubmit].

    The builder works on JavaScript objects that are shared by
    reference: every object it creates sits in [commentMap] under its
    own [id], and the [replies] arrays and [rootComments] hold
    references to those objects.  The embedding keeps that sharing: the
    heap is the map itself, a reference is the key of the object, and
    the arrays are lists of keys.  The nested value a caller sees is
    recovered by unfolding the heap from the roots. *)

From stdpp Require Import base option list list_numbers sorting strings gmap fin_maps.
From Stdlib Require Import ZArith Lia.

Open Scope Z_scope.
#[local] Set Warnings "-clear-no-such-hyp".

(** ** Data model *)

(** A JavaScript string as its sequence of UTF-16 code units; [length]
    and [trim] of the source work on code units. *)
Definition jsstring := list N.

(** [interface Comment], as a row arrives from the backend.  The
    optional fields [replies] and [depth] are absent on a fetched row;
    the builder adds them, see [CommentObj].  [created_at],
    [updated_at] and [deleted_at] hold the instant
    [new Date(...).getTime()] denotes, in milliseconds; [profiles] is
    the joined [username] and [avatar_url]. *)
Record Comment := mkComment {
  id : string;
  post_id : string;
  user_id : string;
  parent_id : option string;
  content : jsstring;
  created_at : Z;
  updated_at : Z;
  is_deleted : bool;
  deleted_at : option Z;
  profiles : option (string * option string);
  likes_count : Z;
  is_liked : bool
}.

(** The object [{ ...comment, replies: [], depth: 0 }] stored in
    [commentMap]; [replies] holds references, that is keys of the map. *)
Record CommentObj := mkObj {
  rec : Comment;
  replies : list string;
  depth : Z
}.

(** The nested value reachable from one reference. *)
#[warnings="-register-all"]
Inductive CommentNode :=
  Node (node_comment : Comment) (node_depth : Z) (node_replies : list CommentNode).

(** State of the second pass: the heap and the [rootComments] array. *)
Abbreviation heap := (gmap string CommentObj).
Abbreviation build_state := (heap * list string)%type.

(** ** organizeComments *)

(** Truthiness of [parent_id]: [null], [undefined] and the empty string
    are falsy. *)
Definition truthy (p : option string) : option string :=
  match p with
  | Some s => if decide (s = EmptyString) then None else Some s
  | None => None
  end.

Definition fresh_obj (c : Comment) : CommentObj :=
  {| rec := c; replies := []; depth := 0 |}.

(** First pass: [commentMap.set(comment.id, {...comment, replies: [], depth: 0})]. *)
Definition index_step (m : heap) (c : Comment) : heap :=
  <[id c := fresh_obj c]> m.

Definition commentMap (flatComments : list Comment) : heap :=
  foldl index_step ∅ flatComments.

Definition set_depth (d : Z) (o : CommentObj) : CommentObj :=
  {| rec := rec o; replies := replies o; depth := d |}.

Definition push_reply (x : string) (o : CommentObj) : CommentObj :=
  {| rec := rec o; replies := replies o ++ [x]; depth := depth o |}.

(** Where a reply of [parent] (stored under [pid]) goes: under the
    parent of the parent when [parentDepth >= 1], the parent has a
    truthy [parent_id] and that id is in the map; under the parent
    otherwise. *)
Definition attach_target (m : heap) (pid : string) (parent : CommentObj) : string :=
  if Z.leb 1 (depth parent) then
    match truthy (parent_id (rec parent)) with
    | Some gid => match m !! gid with Some _ => gid | None => pid end
    | None => pid
    end
  else pid.

(** One round of the second [forEach].  [None] is the failure of the
    non-null assertion on [commentMap.get(comment.id)]. *)
Definition link_step (st : build_state) (c : Comment) : option build_state :=
  let '(m, rootComments) := st in
  _ ← m !! id c;
  match truthy (parent_id c) with
  | Some pid =>
      match m !! pid with
      | Some parent =>
          let parentDepth := depth parent in
          let m1 := alter (set_depth (Z.min (parentDepth + 1) 2)) (id c) m in
          Some (alter (push_reply (id c)) (attach_target m pid parent) m1, rootComments)
      | None => Some (m, rootComments ++ [id c])
      end
  | None => Some (m, rootComments ++ [id c])
  end.

Fixpoint link_all (st : build_state) (l : list Comment) : option build_state :=
  match l with
  | [] => Some st
  | c :: l' => st' ← link_step st c; link_all st' l'
  end.

(** The comparator [sortByDate(a, b)], on references whose instants
    [key] gives: [getTime(b) - getTime(a)]. *)
Definition sortByDate (key : string → Z) (a b : string) : Z := key b - key a.

(** [Array.prototype.sort] with [sortByDate].  The sort is stable: [x]
    moves behind [y] only when the comparator is positive, so records
    with equal instants keep their relative order. *)
Fixpoint insert_desc (key : string → Z) (x : string) (l : list string) : list string :=
  match l with
  | [] => [x]
  | y :: l' =>
      if Z.ltb 0 (sortByDate key x y) then y :: insert_desc key x l' else x :: l
  end.

Definition sort_desc (key : string → Z) (l : list string) : list string :=
  foldr (insert_desc key) [] l.

Definition created_of (m : heap) (i : string) : Z :=
  match m !! i with Some o => created_at (rec o) | None => 0 end.

Definition replies_of (m : heap) (i : string) : list string :=
  match m !! i with Some o => replies o | None => [] end.

Definition depth_of (m : heap) (i : string) : Z :=
  match m !! i with Some o => depth o | None => 0 end.

Definition set_replies (l : list string) (o : CommentObj) : CommentObj :=
  {| rec := rec o; replies := l; depth := depth o |}.

(** [x.replies.sort(sortByDate)], in place. *)
Definition sort_replies (m : heap) (i : string) : heap :=
  alter (λ o, set_replies (sort_desc (created_of m) (replies o)) o) i m.

(** The body of [rootComments.forEach]: sort the replies of a root,
    then the replies of each of its replies. *)
Definition sort_under (m : heap) (r : string) : heap :=
  let m1 := sort_replies m r in
  foldl sort_replies m1 (replies_of m1 r).

Definition sort_pass (st : build_state) : build_state :=
  let '(m, rootComments) := st in
  let sorted := sort_desc (created_of m) rootComments in
  (foldl sort_under m sorted, sorted).

(** The builder: the final heap with the returned array of roots. *)
Definition organizeComments (flatComments : list Comment) : option build_state :=
  sort_pass <$> link_all (commentMap flatComments, []) flatComments.

(** ** The returned value, unfolded *)

(** [build fuel m ids] follows [replies] from [ids] for [fuel] levels. *)
Fixpoint build (fuel : nat) (m : heap) (ids : list string) : list CommentNode :=
  match fuel with
  | O => []
  | S f =>
      omap (λ i, o ← m !! i; Some (Node (rec o) (depth o) (build f m (replies o)))) ids
  end.

Definition forest (fuel : nat) (st : build_state) : list CommentNode :=
  build fuel st.1 st.2.

Definition organized (fuel : nat) (flatComments : list Comment)
  : option (list CommentNode) :=
  forest fuel <$> organizeComments flatComments.

Fixpoint nodes (t : CommentNode) : list (Comment * Z) :=
  match t with
  | Node c d rs => (c, d) :: (rs ≫= nodes)
  end.

Definition forest_nodes (F : list CommentNode) : list (Comment * Z) :=
  F ≫= nodes.

Definition node_count (F : list CommentNode) : nat := length (forest_nodes F).

Definition node_comment (t : CommentNode) : Comment :=
  match t with Node c _ _ => c end.
Definition node_depth (t : CommentNode) : Z :=
  match t with Node _ d _ => d end.
Definition node_replies (t : CommentNode) : list CommentNode :=
  match t with Node _ _ rs => rs end.

(** ** The component *)

Definition COMMENTS_PER_PAGE : Z := 20.

(** A reference held by the component: the heap of the
    [organizeComments] call that created the object, and its key. *)
Definition objref := (heap * string)%type.

(** The [useState] cells the handlers read or write. *)
Record State := mkState {
  comments : list objref;
  newComment : jsstring;
  replyingTo : option string;
  replyContent : jsstring;
  loading : bool;
  submitting : bool;
  hasMore : bool;
  offset : Z
}.

(** The messages handed to [toast] and [console.error]. *)
Inductive notice :=
  | LoginRequired | CommentRequired | CommentTooLong | ReplyRequired | ReplyTooLong
  | CommentFailed | ReplyFailed | LoadFailed | CommentWritten | ReplyWritten.

(** A row handed to [supabase.from('comments').insert]. *)
Record NewRow := mkRow {
  row_post_id : string;
  row_user_id : string;
  row_content : jsstring;
  row_parent_id : option string
}.

(** What a handler does to the outside, in order: notifications, the
    insert into [comments], and the page query of [fetchComments] (the
    [comment_likes] queries that follow it are not listed). *)
Inductive effect :=
  | ToastError (n : notice)
  | ToastSuccess (n : notice)
  | ConsoleError (n : notice)
  | Insert (r : NewRow)
  | Select (post : string) (from to : Z).

(** What the backend answers to one run of [fetchComments]: the page
    query, and the two [comment_likes] queries per comment. *)
Record FetchReply := mkReply {
  reply_error : bool;
  reply_data : option (list Comment);
  reply_count : option Z;
  reply_likes : string → option Z;
  reply_liked : string → bool
}.

(** White space and line terminators of ECMAScript, which
    [String.prototype.trim] strips. *)
Definition is_space (u : N) : bool :=
  (((9 <=? u) && (u <=? 13)) || (u =? 32) || (u =? 160) || (u =? 5760)
   || ((8192 <=? u) && (u <=? 8202)) || (u =? 8232) || (u =? 8233)
   || (u =? 8239) || (u =? 8287) || (u =? 12288) || (u =? 65279))%N.

Fixpoint trim_start (s : jsstring) : jsstring :=
  match s with
  | u :: s' => if is_space u then trim_start s' else s
  | [] => []
  end.

Definition trim (s : jsstring) : jsstring :=
  reverse (trim_start (reverse (trim_start s))).

Definition js_length (s : jsstring) : Z := Z.of_nat (length s).

Definition set_likes (n : Z) (b : bool) (c : Comment) : Comment :=
  {| id := id c; post_id := post_id c; user_id := user_id c;
     parent_id := parent_id c; content := content c;
     created_at := created_at c; updated_at := updated_at c;
     is_deleted := is_deleted c; deleted_at := deleted_at c;
     profiles := profiles c; likes_count := n; is_liked := b |}.

(** [commentsWithLikes]: a deleted comment gets no like data. *)
Definition with_likes (user : option string) (r : FetchReply) (c : Comment) : Comment :=
  if is_deleted c then set_likes 0 false c
  else set_likes (default 0 (reply_likes r (id c)))
                 (match user with Some _ => reply_liked r (id c) | None => false end) c.

Definition set_loading (b : bool) (s : State) : State :=
  mkState (comments s) (newComment s) (replyingTo s) (replyContent s)
          b (submitting s) (hasMore s) (offset s).
Definition set_submitting (b : bool) (s : State) : State :=
  mkState (comments s) (newComment s) (replyingTo s) (replyContent s)
          (loading s) b (hasMore s) (offset s).
Definition set_offset (n : Z) (s : State) : State :=
  mkState (comments s) (newComment s) (replyingTo s) (replyContent s)
          (loading s) (submitting s) (hasMore s) n.
Definition set_hasMore (b : bool) (s : State) : State :=
  mkState (comments s) (newComment s) (replyingTo s) (replyContent s)
          (loading s) (submitting s) b (offset s).
Definition set_comments (l : list objref) (s : State) : State :=
  mkState l (newComment s) (replyingTo s) (replyContent s)
          (loading s) (submitting s) (hasMore s) (offset s).
Definition set_newComment (t : jsstring) (s : State) : State :=
  mkState (comments s) t (replyingTo s) (replyContent s)
          (loading s) (submitting s) (hasMore s) (offset s).
Definition set_replyContent (t : jsstring) (s : State) : State :=
  mkState (comments s) (newComment s) (replyingTo s) t
          (loading s) (submitting s) (hasMore s) (offset s).
Definition set_replyingTo (r : option string) (s : State) : State :=
  mkState (comments s) (newComment s) r (replyContent s)
          (loading s) (submitting s) (hasMore s) (offset s).

(** The references [organizeComments] returns, each with its heap. *)
Definition root_refs (st : build_state) : list objref :=
  (λ r, (st.1, r)) <$> st.2.

Section Component.
Variable postId : string.
Variable user : option string.

(** [fetchComments(loadMore)]; the [catch] arm covers the query
    error and a failure inside the builder. *)
Definition fetchComments (loadMore : bool) (s : State) (r : FetchReply)
  : State * list effect :=
  let currentOffset := if loadMore then offset s else 0 in
  let query := Select postId currentOffset (currentOffset + COMMENTS_PER_PAGE - 1) in
  let failed := (set_loading false s, [query; ConsoleError LoadFailed; ToastError LoadFailed]) in
  if reply_error r then failed
  else
    let commentsWithLikes := with_likes user r <$> default [] (reply_data r) in
    match organizeComments commentsWithLikes with
    | None => failed
    | Some organizedComments =>
        let s1 := if loadMore
                  then set_comments (comments s ++ root_refs organizedComments) s
                  else set_comments (root_refs organizedComments) s in
        let s2 := set_hasMore (Z.ltb (currentOffset + COMMENTS_PER_PAGE)
                                     (default 0 (reply_count r))) s1 in
        let s3 := if loadMore then set_offset (currentOffset + COMMENTS_PER_PAGE) s2 else s2 in
        (set_loading false s3, [query])
    end.

(** [handleSubmit]: [insertError] is the answer of the insert, [r]
    the answer to the reload that follows a successful insert. *)
Definition handleSubmit (s : State) (insertError : bool) (r : FetchReply)
  : State * list effect :=
  match user with
  | None => (s, [ToastError LoginRequired])
  | Some uid =>
      match trim (newComment s) with
      | [] => (s, [ToastError CommentRequired])
      | _ :: _ =>
          if Z.ltb 1000 (js_length (newComment s)) then (s, [ToastError CommentTooLong])
          else
            let s1 := set_submitting true s in
            let ins := Insert (mkRow postId uid (trim (newComment s)) None) in
            if insertError then
              (set_submitting false s1, [ins; ConsoleError CommentFailed; ToastError CommentFailed])
            else
              let s2 := set_offset 0 (set_newComment [] s1) in
              let '(s3, es) := fetchComments false (set_submitting false s2) r in
              (s3, ins :: ToastSuccess CommentWritten :: es)
      end
  end.

(** [handleReplySubmit(parentId, parentUsername)]. *)
Definition handleReplySubmit (parentId : string) (s : State)
    (insertError : bool) (r : FetchReply) : State * list effect :=
  match user with
  | None => (s, [ToastError LoginRequired])
  | Some uid =>
      match trim (replyContent s) with
      | [] => (s, [ToastError ReplyRequired])
      | _ :: _ =>
          if Z.ltb 1000 (js_length (replyContent s)) then (s, [ToastError ReplyTooLong])
          else
            let s1 := set_submitting true s in
            let ins := Insert (mkRow postId uid (trim (replyContent s)) (Some parentId)) in
            if insertError then
              (set_submitting false s1, [ins; ConsoleError ReplyFailed; ToastError ReplyFailed])
            else
              let s2 := set_replyingTo None (set_replyContent [] s1) in
              let '(s3, es) := fetchComments false (set_submitting false s2) r in
              (s3, ins :: ToastSuccess ReplyWritten :: es)
      end
  end.
End Component.

(** The nested values behind the references the component holds. *)
Definition view (fuel : nat) (l : list objref) : list CommentNode :=
  l ≫= (λ '(m, r), build fuel m [r]).

(** ** Predicates the statements use *)

(** Newest first: every element is at least as new as all later ones. *)
Definition newest_first (l : list CommentNode) : Prop :=
  StronglySorted (λ a b, created_at (node_comment b) ≤ created_at (node_comment a)) l.

Definition newest_first_ids (key : string → Z) (l : list string) : Prop :=
  StronglySorted (λ a b, key b ≤ key a) l.

(** Every parent reference that resolves in the input points to a
    record of strictly smaller rank: the references have no cycle. *)
Definition parents_ranked (rank : string → nat) (flat : list Comment) : bool :=
  forallb (λ c,
    match truthy (parent_id c) with
    | Some p => if decide (p ∈ id <$> flat) then bool_decide (rank p < rank (id c))%nat else true
    | None => true
    end) flat.

Definition max_rank (rank : string → nat) (flat : list Comment) : nat :=
  max_list (rank ∘ id <$> flat).

Definition set_deleted (b : bool) (c : Comment) : Comment :=
  {| id := id c; post_id := post_id c; user_id := user_id c;
     parent_id := parent_id c; content := content c;
     created_at := created_at c; updated_at := updated_at c;
     is_deleted := b; deleted_at := deleted_at c;
     profiles := profiles c; likes_count := likes_count c; is_liked := is_liked c |}.

Fixpoint tree_map (φ : Comment → Comment) (t : CommentNode) : CommentNode :=
  match t with
  | Node c d rs => Node (φ c) d (tree_map φ <$> rs)
  end.

Definition obj_map (φ : Comment → Comment) (o : CommentObj) : CommentObj :=
  {| rec := φ (rec o); replies := replies o; depth := depth o |}.

(** Two heaps with the same keys whose objects agree on the record
    and the depth, and hold the same replies up to their order. *)
Definition same_shape (m m' : heap) : Prop :=
  ∀ k, option_Forall2
         (λ o o', rec o = rec o' ∧ depth o = depth o' ∧ replies o ≡ₚ replies o')
         (m !! k) (m' !! k).

Definition sorted_at (m : heap) (x : string) : Prop :=
  newest_first_ids (created_of m) (replies_of m x).

(** Depths stay within the three levels. *)
Definition depths_ok (m : heap) : Prop :=
  map_Forall (λ _ o, 0 ≤ depth o ≤ 2) m.

(** The state of the second pass after the records [done] of an input
    [flat] with unique identifiers: every record done was pushed once,
    onto [rootComments] with depth 0 or onto some [replies] with depth
    1 or 2, and the records still to come have depth 0. *)
Definition linked (flat done : list Comment) (st : build_state) : Prop :=
  rec <$> st.1 = rec <$> commentMap flat ∧
  depths_ok st.1 ∧
  st.2 ++ ((id <$> flat) ≫= replies_of st.1) ≡ₚ id <$> done ∧
  (∀ x, x ∈ st.2 → depth_of st.1 x = 0) ∧
  (∀ t x, x ∈ replies_of st.1 t → 1 ≤ depth_of st.1 x ≤ 2) ∧
  (∀ x, x ∉ id <$> done → depth_of st.1 x = 0).

(** [Q t x] holds wherever [x] sits in the [replies] of [t]. *)
Definition edges (Q : string → string → Prop) (m : heap) : Prop :=
  ∀ t x, x ∈ replies_of m t → Q t x.

(** [x] is the id of a record whose parent reference resolves. *)
Definition resolved (flat : list Comment) (x : string) : Prop :=
  ∃ c p, c ∈ flat ∧ id c = x ∧ truthy (parent_id c) = Some p ∧ p ∈ id <$> flat.

(** Number of nodes under one reference, [fuel] levels deep. *)
Definition weight (fuel : nat) (m : heap) (x : string) : nat :=
  node_count (build fuel m [x]).

(** The shape the four-comment chain [A], [B], [C], [D] is said to take:
    [A] is the only root, [B] and [C] hang under [A] with depths 1 and
    2, and [D] hangs under [B] with depth 2. *)
Definition chain_collapsed (A B C D : Comment) (F : list CommentNode) : Prop :=
  ∃ rs, F = [Node A 0 rs] ∧ rs ≡ₚ [Node B 1 [Node D 2 []]; Node C 2 []].

(** The depth of every node is its distance from the root, capped at 2. *)
Fixpoint depth_is_level (level : Z) (t : CommentNode) : bool :=
  match t with
  | Node _ d rs => (d =? Z.min level 2) && forallb (depth_is_level (level + 1)) rs
  end.

(** ** Sample inputs *)

Definition mk (i : string) (p : option string) (t : Z) : Comment :=
  mkComment i "post-1" "user-1" p [] t t false None None 0 false.

(** Three comments, each replying to the one before, oldest first. *)
Definition three_oldest_first : list Comment :=
  [mk "1" None 100; mk "2" (Some "1") 200; mk "3" (Some "2") 300].

(** A chain of four, as the backend delivers it: newest first. *)
Definition chain_newest_first : list Comment :=
  [mk "D" (Some "C") 400; mk "C" (Some "B") 300; mk "B" (Some "A") 200; mk "A" None 100].

Definition chain_oldest_first : list Comment := reverse chain_newest_first.

(** A comment whose [parent_id] is its own [id]. *)
Definition self_reply : list Comment := [mk "a" (Some "a") 100].


(** A reply on the first page whose parent comes on the second. *)
Definition page_one : list Comment := [mk "reply" (Some "parent") 200].
Definition page_two : list Comment := [mk "parent" None 100].

Definition answer (rows : list Comment) : FetchReply :=
  mkReply false (Some rows) (Some 2) (λ _, Some 0) (λ _, false).

Definition start : State := mkState [] [] None [] true false false 0.

(** The component after the first page has been loaded. *)
Definition loaded : State :=
  (fetchComments "post-1" None false start (answer page_one)).1.

(** A page with a reply whose parent is on no page, in front of the
    chain of four. *)
Definition orphan_page : list Comment := page_one ++ chain_newest_first.

(** A comment of spaces only, and one of 1001 letters. *)
Definition blank_draft : State := mkState [] [32; 32; 10]%N None [9; 32]%N false false false 0.
Definition long_draft : State :=
  mkState [] (replicate 1001 97%N) None (replicate 1001 97%N) false false false 0.

(** ** Further predicates on the builder *)

(** A record the second pass pushes onto [rootComments]: its
    [parent_id] is falsy or is the id of no record of the input. *)
Definition is_top (flat : list Comment) (c : Comment) : bool :=
  match truthy (parent_id c) with
  | Some p => bool_decide (p ∉ id <$> flat)
  | None => true
  end.

(** A node and all nodes below it. *)
Fixpoint subtrees (t : CommentNode) : list CommentNode :=
  match t with
  | Node c d rs => Node c d rs :: (rs ≫= subtrees)
  end.

(** Replies come before their parents, as in a page ordered newest
    first: no record's parent is among the records before it. *)
Fixpoint replies_first_from (seen : list string) (l : list Comment) : bool :=
  match l with
  | [] => true
  | c :: l' =>
      match truthy (parent_id c) with
      | Some p => bool_decide (p ∉ seen)
      | None => true
      end && replies_first_from (id c :: seen) l'
  end.

Definition replies_first (flat : list Comment) : bool := replies_first_from [] flat.

(** Parents come before their replies: a parent that is in the input
    at all is among the records before the reply. *)
Fixpoint parents_first_from (ids seen : list string) (l : list Comment) : bool :=
  match l with
  | [] => true
  | c :: l' =>
      match truthy (parent_id c) with
      | Some p => bool_decide (p ∈ ids → p ∈ seen)
      | None => true
      end && parents_first_from ids (id c :: seen) l'
  end.

Definition parents_first (flat : list Comment) : bool :=
  parents_first_from (id <$> flat) [] flat.

(** How many ancestors of [c] the input holds: the length of the chain
    of [parent_id]s from [c] up to a record without a parent in the
    input, followed for at most [fuel] steps. *)
Fixpoint chain_length (fuel : nat) (flat : list Comment) (c : Comment) : Z :=
  match fuel with
  | O => 0
  | S f =>
      match truthy (parent_id c) with
      | Some p =>
          match find (λ c', bool_decide (id c' = p)) flat with
          | Some c' => 1 + chain_length f flat c'
          | None => 0
          end
      | None => 0
      end
  end.

(** ** More of the component *)

(** [handleReplyClick(commentId, username)]: opens the reply box under
    the comment and fills it with the mention, an at-sign, the name and
    a space.  The delayed [focus()] call leaves the state alone. *)
Definition handleReplyClick (commentId : string) (username : jsstring) (s : State)
  : State :=
  set_replyContent ([64%N] ++ username ++ [32%N]) (set_replyingTo (Some commentId) s).

(** The load-more button pressed once per answer of [rs], each press
    on the state the one before left. *)
Fixpoint loadMore_clicks (postId : string) (user : option string) (s : State)
    (rs : list FetchReply) : State * list effect :=
  match rs with
  | [] => (s, [])
  | r :: rs' =>
      let '(s1, es) := fetchComments postId user true s r in
      let '(s2, es') := loadMore_clicks postId user s1 rs' in
      (s2, es ++ es')
  end.

Definition all_space (w : jsstring) : Prop := Forall (λ u, is_space u = true) w.

(** A text that neither starts nor ends with white space. *)
Definition trimmed (t : jsstring) : Prop :=
  (∀ u, head t = Some u → is_space u = false) ∧
  (∀ u, last t = Some u → is_space u = false).

(** The two cells of the inline editor. *)
Record Editor := mkEditor {
  editingId : option string;
  editContent : jsstring
}.

(** What [handleUpdate], [handleDelete] and [handleLike] send to the
    backend.  [owner] is the filter [.eq('user_id', user?.id)], which
    is [undefined] when nobody is logged in; [at] is the instant of
    [new Date()] written into [updated_at] or [deleted_at]. *)
Inductive request :=
  | UpdateContent (commentId : string) (owner : option string)
      (newContent : jsstring) (at_ : Z)
  | SoftDelete (commentId : string) (owner : option string) (at_ : Z)
  | LikeInsert (commentId userId : string)
  | LikeDelete (commentId userId : string).

Inductive message :=
  | UpdateFailed | CommentUpdated | DeleteFailed | CommentDeleted | LikeFailed.

(** What these handlers do to the outside, in order: what the submit
    handlers and [fetchComments] do, a request, the [confirm] dialog
    with its answer, a notification, a line on the console. *)
Inductive event :=
  | Did (e : effect)
  | Sent (q : request)
  | Confirmed (answer : bool)
  | Toast (ok : bool) (m : message)
  | Console (m : message).

Definition requests (es : list event) : list request :=
  omap (λ e, match e with Sent q => Some q | _ => None end) es.

Section Handlers.
Variable postId : string.
Variable user : option string.

(** [handleUpdate(commentId)]; there is no check that somebody is
    logged in. *)
Definition handleUpdate (commentId : string) (now : Z) (s : State) (ed : Editor)
    (updateError : bool) (r : FetchReply) : State * Editor * list event :=
  match trim (editContent ed) with
  | [] => (s, ed, [Did (ToastError CommentRequired)])
  | _ :: _ =>
      if Z.ltb 1000 (js_length (editContent ed))
      then (s, ed, [Did (ToastError CommentTooLong)])
      else
        let q := Sent (UpdateContent commentId user (trim (editContent ed)) now) in
        if updateError then (s, ed, [q; Console UpdateFailed; Toast false UpdateFailed])
        else
          let '(s1, es) := fetchComments postId user false s r in
          (s1, mkEditor None [], q :: Toast true CommentUpdated :: (Did <$> es))
  end.

(** [handleDelete(commentId)]; [confirmed] is what [confirm] returned. *)
Definition handleDelete (commentId : string) (now : Z) (s : State)
    (confirmed deleteError : bool) (r : FetchReply) : State * list event :=
  if confirmed then
    let q := Sent (SoftDelete commentId user now) in
    if deleteError
    then (s, [Confirmed true; q; Console DeleteFailed; Toast false DeleteFailed])
    else
      let '(s1, es) := fetchComments postId user false s r in
      (s1, Confirmed true :: q :: Toast true CommentDeleted :: (Did <$> es))
  else (s, [Confirmed false]).

(** [handleLike(commentId, isLiked)]. *)
Definition handleLike (commentId : string) (isLiked : bool) (s : State)
    (likeError : bool) (r : FetchReply) : State * list event :=
  match user with
  | None => (s, [Did (ToastError LoginRequired)])
  | Some uid =>
      let q := Sent (if isLiked then LikeDelete commentId uid
                     else LikeInsert commentId uid) in
      if likeError then (s, [q; Console LikeFailed; Toast false LikeFailed])
      else
        let '(s1, es) := fetchComments postId user false s r in
        (s1, q :: (Did <$> es))
  end.
End Handlers.

(** ** Relative times *)

(** The text [getRelativeTime] returns: a count with its unit, or the
    text for just now. *)
Inductive ago :=
  | YearsAgo (n : Z) | MonthsAgo (n : Z) | DaysAgo (n : Z)
  | HoursAgo (n : Z) | MinutesAgo (n : Z) | JustNow.

(** [getRelativeTime] of the comment section.  [now] and [date] are the
    instants [getTime()] gives; [date] is [None] for a string that
    [new Date] cannot read, whose [getTime()] is [NaN] and fails every
    comparison. *)
Definition getRelativeTime (now : Z) (date : option Z) : ago :=
  match date with
  | None => JustNow
  | Some t =>
      let diff := now - t in
      let seconds := diff / 1000 in
      let minutes := seconds / 60 in
      let hours := minutes / 60 in
      let days := hours / 24 in
      if 0 <? days then DaysAgo days
      else if 0 <? hours then HoursAgo hours
      else if 0 <? minutes then MinutesAgo minutes
      else JustNow
  end.

(** [Array.prototype.sort] with a comparator [(a, b) => key(b) - key(a)],
    on any elements: largest key first, stable. *)
Fixpoint insert_by_key {A} (key : A → Z) (x : A) (l : list A) : list A :=
  match l with
  | [] => [x]
  | y :: l' => if Z.ltb 0 (key y - key x) then y :: insert_by_key key x l' else x :: l
  end.

Definition sort_by_key {A} (key : A → Z) (l : list A) : list A :=
  foldr (insert_by_key key) [] l.

(** ** The main page *)

Module MainPage.

Record Post := mkPost {
  id : string;
  title : string;
  content : string;
  slug : option string;
  tags : option (list string);
  is_public : bool;
  thumbnail_url : option string;
  view_count : Z;
  created_at : Z;
  author_id : string;
  profiles : option (string * option string);
  likes_count : option Z;
  comments_count : option Z
}.

Inductive SortOption := latest | popular.

(** The answer of the backend to one run of [fetchPosts]: the post
    query and the two count queries per post. *)
Record PostsReply := mkPostsReply {
  posts_error : bool;
  posts_data : option (list Post);
  likes_of : string → option Z;
  comments_of : string → option Z
}.

(** What [fetchPosts] leaves: the list shown, whether the query asked
    the backend to order by [created_at], and whether the error
    notification was shown.  [loading] is false on every path. *)
Record PostsResult := mkPostsResult {
  shown : list Post;
  ordered_by_backend : bool;
  failed : bool
}.

Definition with_counts (r : PostsReply) (p : Post) : Post :=
  mkPost (id p) (title p) (content p) (slug p) (tags p) (is_public p)
         (thumbnail_url p) (view_count p) (created_at p) (author_id p) (profiles p)
         (Some (default 0 (likes_of r (id p))))
         (Some (default 0 (comments_of r (id p)))).

(** The score of the popular order: a comment weighs twice a like. *)
Definition score (p : Post) : Z :=
  default 0 (likes_count p) + default 0 (comments_count p) * 2.

Definition fetchPosts (sortBy : SortOption) (posts : list Post) (r : PostsReply)
  : PostsResult :=
  let ordered := match sortBy with latest => true | popular => false end in
  if posts_error r then mkPostsResult posts ordered true
  else
    let postsWithCounts := with_counts r <$> default [] (posts_data r) in
    let sorted := match sortBy with
                  | popular => sort_by_key score postsWithCounts
                  | latest => postsWithCounts
                  end in
    mkPostsResult sorted ordered false.

Definition getRelativeTime (now : Z) (date : option Z) : ago :=
  match date with
  | None => JustNow
  | Some t =>
      let diff := now - t in
      let seconds := diff / 1000 in
      let minutes := seconds / 60 in
      let hours := minutes / 60 in
      let days := hours / 24 in
      let months := days / 30 in
      let years := days / 365 in
      if 0 <? years then YearsAgo years
      else if 0 <? months then MonthsAgo months
      else if 0 <? days then DaysAgo days
      else if 0 <? hours then HoursAgo hours
      else if 0 <? minutes then MinutesAgo minutes
      else JustNow
  end.

Definition gradients : list string :=
  ["bg-gradient-to-br from-purple-400 to-pink-500";
   "bg-gradient-to-br from-blue-400 to-cyan-500";
   "bg-gradient-to-br from-green-400 to-teal-500";
   "bg-gradient-to-br from-orange-400 to-red-500";
   "bg-gradient-to-br from-indigo-400 to-purple-500";
   "bg-gradient-to-br from-pink-400 to-rose-500"].

(** [gradients[index % gradients.length]]: the remainder has the sign
    of [index], and an array has nothing at a negative index. *)
Definition getGradient (index : Z) : option string :=
  let i := Z.rem index (Z.of_nat (length gradients)) in
  if i <? 0 then None else gradients !! Z.to_nat i.

End MainPage.

(** The number in the heading of the comment section,
    [comments.length]. *)
Definition headerCount (s : State) : nat := length (comments s).

(** A draft with white space around two letters. *)
Definition padded_draft : State :=
  mkState [] [32; 104; 105; 10]%N None [32; 111; 107; 32]%N false false false 0.

(** A page with one deleted comment, for which the backend still holds
    five likes, one of them the viewer's. *)
Definition deleted_page : list Comment := [set_deleted true (mk "x" None 100)].

Definition busy_answer (rows : list Comment) : FetchReply :=
  mkReply false (Some rows) (Some 1) (λ _, Some 5) (λ _, true).

(** * Properties *)

(** ** The index built by the first pass *)

Section Index.
Implicit Types (m : heap) (l flat : list Comment) (c : Comment) (k : string).

Lemma index_fold_lookup l m k o :
  foldl index_step m l !! k = Some o →
  m !! k = Some o ∨ (∃ c, c ∈ l ∧ id c = k ∧ o = fresh_obj c).
Proof.
  revert m. induction l as [|c l IH]; intros m H; simpl in H; [by left|].
  apply IH in H as [H|H].
  - unfold index_step in H. rewrite lookup_insert in H.
    case_decide; [|by left]. simplify_eq. right. exists c. set_solver.
  - right. destruct H as (c' & ? & ? & ?). exists c'. set_solver.
Qed.

Lemma index_fold_is_Some l m k :
  is_Some (foldl index_step m l !! k) ↔ is_Some (m !! k) ∨ k ∈ id <$> l.
Proof.
  revert m. induction l as [|c l IH]; intros m; simpl.
  - set_solver.
  - rewrite IH. unfold index_step. rewrite lookup_insert_is_Some'. set_solver.
Qed.

Lemma commentMap_is_Some flat k :
  is_Some (commentMap flat !! k) ↔ k ∈ id <$> flat.
Proof.
  unfold commentMap. rewrite index_fold_is_Some, lookup_empty.
  split; [intros [[? [=]]|]; done | auto].
Qed.

Lemma commentMap_lookup flat k o :
  commentMap flat !! k = Some o →
  ∃ c, c ∈ flat ∧ id c = k ∧ o = fresh_obj c.
Proof.
  intros H. apply index_fold_lookup in H as [H|H]; [|done].
  by rewrite lookup_empty in H.
Qed.

Lemma index_fold_fresh l m c :
  id c ∉ id <$> l → foldl index_step (index_step m c) l !! id c = Some (fresh_obj c).
Proof.
  revert m. induction l as [|c' l IH] using rev_ind; intros m Hc.
  - simpl. unfold index_step. by rewrite lookup_insert_eq.
  - rewrite foldl_snoc. unfold index_step at 1.
    rewrite fmap_app in Hc. rewrite lookup_insert_ne by set_solver.
    apply IH. set_solver.
Qed.

Lemma commentMap_unique flat c :
  NoDup (id <$> flat) → c ∈ flat → commentMap flat !! id c = Some (fresh_obj c).
Proof.
  intros Hnd Hc. apply list_elem_of_split in Hc as (l1 & l2 & ->).
  unfold commentMap. rewrite foldl_app. simpl.
  apply index_fold_fresh.
  rewrite fmap_app, fmap_cons in Hnd.
  apply NoDup_app in Hnd as (_ & _ & Hnd). by apply NoDup_cons in Hnd as [? _].
Qed.
End Index.

Lemma commentMap_has_id flat c : c ∈ flat → is_Some (commentMap flat !! id c).
Proof. intros Hc. apply commentMap_is_Some. set_solver. Qed.

(** ** Sorting *)

Section Sort.
Variable key : string → Z.

Lemma insert_desc_perm x l : insert_desc key x l ≡ₚ x :: l.
Proof.
  induction l as [|y l IH]; simpl; [done|].
  case_match; [|done]. rewrite IH. apply Permutation_swap.
Qed.

Lemma sort_desc_perm l : sort_desc key l ≡ₚ l.
Proof.
  induction l as [|x l IH]; simpl; [done|].
  by rewrite insert_desc_perm, IH.
Qed.

Lemma insert_desc_sorted x l :
  newest_first_ids key l → newest_first_ids key (insert_desc key x l).
Proof.
  unfold newest_first_ids.
  induction l as [|y l IH]; simpl; intros Hs.
  - repeat constructor.
  - apply StronglySorted_inv in Hs as [Hs Hy].
    unfold sortByDate.
    destruct (Z.ltb_spec 0 (key y - key x)) as [Hlt|Hge].
    + constructor; [by apply IH|].
      rewrite insert_desc_perm. constructor; [lia|done].
    + constructor; [by constructor|].
      constructor; [lia|].
      eapply Forall_impl; [exact Hy|]. simpl. intros; lia.
Qed.

Lemma sort_desc_sorted l : newest_first_ids key (sort_desc key l).
Proof.
  induction l as [|x l IH]; simpl; [constructor|].
  by apply insert_desc_sorted.
Qed.

Lemma insert_desc_id x l :
  Forall (λ y, key y ≤ key x) l → insert_desc key x l = x :: l.
Proof.
  destruct l as [|y l]; simpl; [done|]. intros Hl.
  apply Forall_cons in Hl as [Hy _]. unfold sortByDate.
  destruct (Z.ltb_spec 0 (key y - key x)); [lia|done].
Qed.

(** Sorting a sorted array leaves it as it is. *)
Lemma sort_desc_id l : newest_first_ids key l → sort_desc key l = l.
Proof.
  induction 1 as [|x l Hs IH Hx]; simpl; [done|].
  rewrite IH. by apply insert_desc_id.
Qed.
End Sort.

Lemma insert_desc_ext k1 k2 x l :
  (∀ i, k1 i = k2 i) → insert_desc k1 x l = insert_desc k2 x l.
Proof.
  intros E. induction l as [|y l IH]; simpl; [done|].
  unfold sortByDate. by rewrite !E, IH.
Qed.

Lemma sort_desc_ext k1 k2 l :
  (∀ i, k1 i = k2 i) → sort_desc k1 l = sort_desc k2 l.
Proof.
  intros E. induction l as [|x l IH]; simpl; [done|].
  rewrite IH. by apply insert_desc_ext.
Qed.

Lemma newest_first_ids_ext k1 k2 l :
  (∀ i, k1 i = k2 i) → newest_first_ids k1 l → newest_first_ids k2 l.
Proof.
  intros E. unfold newest_first_ids.
  induction 1 as [|x l Hs IH Hx]; constructor; [done|].
  eapply Forall_impl; [exact Hx|]. simpl. intros. by rewrite <- !E.
Qed.

(** ** Heaps of the same shape *)

Lemma same_shape_refl m : same_shape m m.
Proof. intros k. destruct (m !! k); by constructor. Qed.

Lemma same_shape_trans m1 m2 m3 :
  same_shape m1 m2 → same_shape m2 m3 → same_shape m1 m3.
Proof.
  intros H12 H23 k. specialize (H12 k). specialize (H23 k).
  destruct H12 as [o1 o2 (?&?&?)|]; inversion H23 as [? o3 (?&?&?)|]; subst;
    constructor.
  repeat split; [congruence..|]. by etrans.
Qed.

Lemma same_shape_created m m' i : same_shape m m' → created_of m' i = created_of m i.
Proof.
  intros H. unfold created_of. destruct (H i) as [?? (E&_)|]; [|done]. by rewrite E.
Qed.

Lemma same_shape_depth m m' i : same_shape m m' → depth_of m' i = depth_of m i.
Proof.
  intros H. unfold depth_of. by destruct (H i) as [?? (_&E&_)|].
Qed.

Lemma same_shape_replies m m' i : same_shape m m' → replies_of m' i ≡ₚ replies_of m i.
Proof.
  intros H. unfold replies_of. by destruct (H i) as [?? (_&_&E)|].
Qed.

Lemma same_shape_elem m m' i y :
  same_shape m m' → y ∈ replies_of m' i ↔ y ∈ replies_of m i.
Proof. intros H. by rewrite (same_shape_replies m m' i H). Qed.

Lemma same_shape_elem_back m m' i y :
  same_shape m m' → y ∈ replies_of m' i → y ∈ replies_of m i.
Proof. intros H ?. by rewrite <- (same_shape_elem m m' i y H). Qed.

Lemma same_shape_bind (D : list string) m m' :
  same_shape m m' → D ≫= replies_of m' ≡ₚ D ≫= replies_of m.
Proof.
  intros H. induction D as [|k D IH]; [done|].
  rewrite !bind_cons. by rewrite IH, (same_shape_replies _ _ k H).
Qed.

Lemma same_shape_recs m m' : same_shape m m' → rec <$> m' = rec <$> m.
Proof.
  intros H. apply map_eq; intros k. rewrite !lookup_fmap.
  destruct (H k) as [?? (E&_)|]; simpl; [|done]. by rewrite E.
Qed.

Lemma sort_replies_shape m i : same_shape m (sort_replies m i).
Proof.
  intros k. unfold sort_replies. rewrite lookup_alter.
  case_decide; simplify_eq; destruct (m !! k); simpl; constructor;
    repeat split; try done.
  simpl. by rewrite sort_desc_perm.
Qed.

Lemma foldl_sort_replies_shape l m : same_shape m (foldl sort_replies m l).
Proof.
  revert m. induction l as [|i l IH]; intros m; simpl; [apply same_shape_refl|].
  eapply same_shape_trans; [apply sort_replies_shape | apply IH].
Qed.

Lemma sort_under_shape m r : same_shape m (sort_under m r).
Proof.
  unfold sort_under.
  eapply same_shape_trans; [apply sort_replies_shape | apply foldl_sort_replies_shape].
Qed.

Lemma foldl_sort_under_shape l m : same_shape m (foldl sort_under m l).
Proof.
  revert m. induction l as [|i l IH]; intros m; simpl; [apply same_shape_refl|].
  eapply same_shape_trans; [apply sort_under_shape | apply IH].
Qed.

(** ** What the sorting pass leaves sorted *)

Lemma sort_replies_sorted m i y :
  sorted_at m y ∨ y = i → sorted_at (sort_replies m i) y.
Proof.
  intros Hy. unfold sorted_at.
  apply newest_first_ids_ext with (k1 := created_of m).
  { intros j. symmetry. apply same_shape_created, sort_replies_shape. }
  unfold replies_of, sort_replies. rewrite lookup_alter.
  case_decide as E; [subst y|].
  - destruct (m !! i); simpl; [apply sort_desc_sorted | constructor].
  - by destruct Hy as [Hy|?].
Qed.

Lemma foldl_sort_replies_sorted l m y :
  sorted_at m y ∨ y ∈ l → sorted_at (foldl sort_replies m l) y.
Proof.
  revert m. induction l as [|i l IH]; intros m Hy; simpl.
  - destruct Hy as [?|Hy]; [done|]. by apply elem_of_nil in Hy.
  - apply IH. destruct Hy as [Hy|Hy].
    + left. apply sort_replies_sorted. by left.
    + apply elem_of_cons in Hy as [->|Hy]; [|by right].
      left. apply sort_replies_sorted. by right.
Qed.

Lemma sort_under_sorted m r y :
  sorted_at m y ∨ y = r ∨ y ∈ replies_of (sort_under m r) r →
  sorted_at (sort_under m r) y.
Proof.
  intros Hy. unfold sort_under in *. apply foldl_sort_replies_sorted.
  destruct Hy as [Hy|[->|Hy]].
  - left. apply sort_replies_sorted. by left.
  - left. apply sort_replies_sorted. by right.
  - right. eapply same_shape_elem_back; [apply foldl_sort_replies_shape | done].
Qed.

Lemma foldl_sort_under_sorted l m y :
  sorted_at m y ∨ y ∈ l ∨ (∃ r, r ∈ l ∧ y ∈ replies_of (foldl sort_under m l) r) →
  sorted_at (foldl sort_under m l) y.
Proof.
  revert m. induction l as [|r l IH]; intros m Hy; simpl in *.
  - destruct Hy as [?|[Hy|(?&Hy&_)]]; [done| |]; by apply elem_of_nil in Hy.
  - apply IH. destruct Hy as [Hy|[Hy|(r0&Hr0&Hy)]].
    + left. apply sort_under_sorted. by left.
    + apply elem_of_cons in Hy as [->|Hy]; [|by right; left].
      left. apply sort_under_sorted. by right; left.
    + apply elem_of_cons in Hr0 as [->|Hr0]; [|right; right; eauto].
      left. apply sort_under_sorted. right; right.
      eapply same_shape_elem_back; [apply foldl_sort_under_shape | done].
Qed.

Lemma sort_pass_shape m roots :
  same_shape m (sort_pass (m, roots)).1 ∧ (sort_pass (m, roots)).2 ≡ₚ roots.
Proof.
  simpl. split; [apply foldl_sort_under_shape | apply sort_desc_perm].
Qed.

Lemma sort_pass_sorted m roots m' roots' :
  sort_pass (m, roots) = (m', roots') →
  newest_first_ids (created_of m') roots' ∧
  (∀ r, r ∈ roots' → sorted_at m' r) ∧
  (∀ r c, r ∈ roots' → c ∈ replies_of m' r → sorted_at m' c).
Proof.
  intros [= <- <-]. split; [|split].
  - apply newest_first_ids_ext with (k1 := created_of m); [|apply sort_desc_sorted].
    intros j. symmetry. apply same_shape_created, foldl_sort_under_shape.
  - intros r Hr. apply foldl_sort_under_sorted. by right; left.
  - intros r c Hr Hc. apply foldl_sort_under_sorted. right; right; eauto.
Qed.

(** ** The second pass *)

Lemma recs_alter (f : CommentObj → CommentObj) k (m : heap) :
  (∀ o, rec (f o) = rec o) → rec <$> alter f k m = rec <$> m.
Proof.
  intros Hf. apply map_eq; intros j. rewrite !lookup_fmap, lookup_alter.
  case_decide; [subst|done]. destruct (m !! j); simpl; [|done]. by rewrite Hf.
Qed.

Lemma recs_lookup (m m' : heap) k o' :
  rec <$> m' = rec <$> m → m' !! k = Some o' →
  ∃ o, m !! k = Some o ∧ rec o = rec o'.
Proof.
  intros E H. apply (f_equal (.!! k)) in E. rewrite !lookup_fmap, H in E.
  destruct (m !! k) as [o|]; simplify_eq/=. eauto.
Qed.

Lemma recs_is_Some (m m' : heap) k :
  rec <$> m' = rec <$> m → is_Some (m' !! k) ↔ is_Some (m !! k).
Proof.
  intros E. apply (f_equal (.!! k)) in E. rewrite !lookup_fmap in E.
  destruct (m !! k), (m' !! k); simplify_eq/=; split; intros [? ?]; eauto; done.
Qed.

Lemma attach_target_cases (m : heap) p parent :
  m !! p = Some parent →
  is_Some (m !! attach_target m p parent) ∧
  (attach_target m p parent = p ∨
   (truthy (parent_id (rec parent)) = Some (attach_target m p parent) ∧
    1 ≤ depth parent)).
Proof.
  intros Hp. unfold attach_target.
  destruct (Z.leb_spec 1 (depth parent)); [|eauto].
  destruct (truthy (parent_id (rec parent))) as [g|] eqn:Hg; [|eauto].
  destruct (m !! g) eqn:Hm; [|eauto]. rewrite Hm. eauto.
Qed.

(** The three ways one round can end. *)
Lemma link_step_inv m roots c st' :
  link_step (m, roots) c = Some st' →
  is_Some (m !! id c) ∧
  ((st' = (m, roots ++ [id c]) ∧
    (truthy (parent_id c) = None ∨
     ∃ p, truthy (parent_id c) = Some p ∧ m !! p = None)) ∨
   (∃ p parent, truthy (parent_id c) = Some p ∧ m !! p = Some parent ∧
      st' = (alter (push_reply (id c)) (attach_target m p parent)
               (alter (set_depth (Z.min (depth parent + 1) 2)) (id c) m), roots))).
Proof.
  unfold link_step. destruct (m !! id c) as [cw|] eqn:Hc; simpl; [|done].
  intros H. split; [eauto|].
  destruct (truthy (parent_id c)) as [p|]; [|left; simplify_eq; eauto].
  destruct (m !! p) as [parent|] eqn:Hp; simplify_eq; [right|left]; eauto 10.
Qed.

Lemma link_step_total m roots c :
  is_Some (m !! id c) → is_Some (link_step (m, roots) c).
Proof.
  intros [cw Hc]. unfold link_step. rewrite Hc. simpl.
  destruct (truthy (parent_id c)) as [p|]; [|eauto].
  destruct (m !! p); eauto.
Qed.

Lemma link_step_recs m roots c st' :
  link_step (m, roots) c = Some st' → rec <$> st'.1 = rec <$> m.
Proof.
  intros H. apply link_step_inv in H as [_ [[-> _]|(p&parent&_&_&->)]]; [done|].
  simpl. by rewrite !recs_alter.
Qed.

Lemma link_all_cons c l st st' :
  link_all st (c :: l) = Some st' ↔
  ∃ st1, link_step st c = Some st1 ∧ link_all st1 l = Some st'.
Proof. change (link_all st (c :: l)) with (link_step st c ≫= λ s, link_all s l).
  apply bind_Some. Qed.

Lemma link_all_recs l st st' :
  link_all st l = Some st' → rec <$> st'.1 = rec <$> st.1.
Proof.
  revert st. induction l as [|c l IH]; intros [m roots] H.
  - by simplify_eq/=.
  - apply link_all_cons in H as (st1 & H1 & H).
    rewrite (IH _ H). exact (link_step_recs _ _ _ _ H1).
Qed.

Lemma link_all_total l m roots :
  (∀ c, c ∈ l → is_Some (m !! id c)) → is_Some (link_all (m, roots) l).
Proof.
  revert m roots. induction l as [|c l IH]; intros m roots Hl; [simpl; eauto|].
  destruct (link_step_total m roots c) as [[m1 r1] H1]; [apply Hl; left|].
  change (link_all (m, roots) (c :: l))
    with (link_step (m, roots) c ≫= λ s, link_all s l).
  rewrite H1. simpl. apply IH. intros c' Hc'.
  eapply recs_is_Some; [exact (link_step_recs _ _ _ _ H1)|].
  apply Hl. by right.
Qed.

Lemma link_all_app l1 l2 st :
  link_all st (l1 ++ l2) = (st' ← link_all st l1; link_all st' l2).
Proof.
  revert st. induction l1 as [|c l1 IH]; intros st; [done|].
  change (link_all st ((c :: l1) ++ l2))
    with (link_step st c ≫= λ s, link_all s (l1 ++ l2)).
  change (link_all st (c :: l1)) with (link_step st c ≫= λ s, link_all s l1).
  destruct (link_step st c); simpl; [apply IH|done].
Qed.

(** *** Depths stay in range, whatever the input *)

Lemma depths_ok_alter f k (m : heap) :
  (∀ o, 0 ≤ depth o ≤ 2 → 0 ≤ depth (f o) ≤ 2) → depths_ok m → depths_ok (alter f k m).
Proof.
  intros Hf Hm j o. rewrite lookup_alter. case_decide; [subst|apply Hm].
  destruct (m !! j) as [o'|] eqn:E; intros; simplify_eq/=. eapply Hf, Hm, E.
Qed.

Lemma link_step_depths m roots c st' :
  depths_ok m → link_step (m, roots) c = Some st' → depths_ok st'.1.
Proof.
  intros Hm H. apply link_step_inv in H as [_ [[-> _]|(p&parent&_&Hp&->)]]; [done|].
  simpl. apply Hm in Hp. simpl in Hp.
  apply depths_ok_alter; [done|]. apply depths_ok_alter; [|done].
  intros; simpl; lia.
Qed.

Lemma link_all_depths l st st' :
  depths_ok st.1 → link_all st l = Some st' → depths_ok st'.1.
Proof.
  revert st. induction l as [|c l IH]; intros [m roots] Hm H.
  - by simplify_eq/=.
  - apply link_all_cons in H as (st1 & H1 & H).
    eapply IH; [|done]. exact (link_step_depths _ _ _ _ Hm H1).
Qed.

Lemma commentMap_depths flat : depths_ok (commentMap flat).
Proof.
  intros k o H. apply commentMap_lookup in H as (c&_&_&->). simpl. lia.
Qed.

Lemma same_shape_depths m m' : same_shape m m' → depths_ok m → depths_ok m'.
Proof.
  intros Hs Hm k o' H. specialize (Hs k). rewrite H in Hs.
  inversion Hs as [o ? (_&E&_) Ho|]; subst. rewrite <- E. by eapply Hm.
Qed.

(** *** Reading the heap after an update *)

Lemma replies_of_set_depth d j (m : heap) k :
  replies_of (alter (set_depth d) j m) k = replies_of m k.
Proof.
  unfold replies_of. rewrite lookup_alter. case_decide; [subst|done].
  by destruct (m !! k).
Qed.

Lemma replies_of_push_eq x t (m : heap) :
  is_Some (m !! t) → replies_of (alter (push_reply x) t m) t = replies_of m t ++ [x].
Proof.
  intros [o Ho]. unfold replies_of. by rewrite lookup_alter_eq, Ho.
Qed.

Lemma replies_of_push_ne x t (m : heap) k :
  t ≠ k → replies_of (alter (push_reply x) t m) k = replies_of m k.
Proof. intros. unfold replies_of. by rewrite lookup_alter_ne. Qed.

Lemma elem_of_replies_push y x t (m : heap) k :
  y ∈ replies_of (alter (push_reply x) t m) k →
  y ∈ replies_of m k ∨ (y = x ∧ k = t).
Proof.
  unfold replies_of. rewrite lookup_alter. case_decide; [subst|by left].
  destruct (m !! k); simpl; [|by left].
  rewrite elem_of_app, list_elem_of_singleton. naive_solver.
Qed.

Lemma depth_of_push x t (m : heap) k :
  depth_of (alter (push_reply x) t m) k = depth_of m k.
Proof.
  unfold depth_of. rewrite lookup_alter. case_decide; [subst|done].
  by destruct (m !! k).
Qed.

Lemma depth_of_set_depth_eq d j (m : heap) :
  is_Some (m !! j) → depth_of (alter (set_depth d) j m) j = d.
Proof. intros [o Ho]. unfold depth_of. by rewrite lookup_alter_eq, Ho. Qed.

Lemma depth_of_set_depth_ne d j (m : heap) k :
  j ≠ k → depth_of (alter (set_depth d) j m) k = depth_of m k.
Proof. intros. unfold depth_of. by rewrite lookup_alter_ne. Qed.

Lemma replies_of_None (m : heap) k : m !! k = None → replies_of m k = [].
Proof. intros H. unfold replies_of. by rewrite H. Qed.

Lemma bind_ext_in {A B} (f g : A → list B) (l : list A) :
  (∀ x, x ∈ l → f x = g x) → l ≫= f = l ≫= g.
Proof.
  induction l as [|x l IH]; intros H; [done|].
  rewrite !bind_cons, H, IH; [done| |left]. intros; apply H; by right.
Qed.

Lemma bind_const_nil {A B} (l : list A) : l ≫= (λ _, @nil B) = [].
Proof. induction l as [|x l IH]; [done|]. by rewrite bind_cons. Qed.

(** Pushing one reference onto one [replies] array adds it once to the
    references held by all arrays together. *)
Lemma bind_replies_push (D : list string) x t (m : heap) :
  NoDup D → t ∈ D → is_Some (m !! t) →
  D ≫= replies_of (alter (push_reply x) t m) ≡ₚ x :: (D ≫= replies_of m).
Proof.
  intros Hnd Ht Hm. induction D as [|k D IH]; [by apply elem_of_nil in Ht|].
  apply NoDup_cons in Hnd as [Hk Hnd]. rewrite !bind_cons.
  destruct (decide (t = k)) as [->|Hne].
  - rewrite replies_of_push_eq by done.
    rewrite (bind_ext_in _ (replies_of m) D).
    + rewrite <- app_assoc. simpl. by rewrite <- Permutation_middle.
    + intros j Hj. apply replies_of_push_ne. by intros ->.
  - rewrite replies_of_push_ne by done.
    rewrite IH; [|done|set_solver]. by rewrite <- Permutation_middle.
Qed.

(** *** The second pass on records with unique identifiers *)

Ltac split_linked :=
  unfold linked; simpl; split; [|split; [|split; [|split; [|split]]]].

Section Unique.
Variable flat : list Comment.
Hypothesis flat_unique : NoDup (id <$> flat).

Lemma linked_start : linked flat [] (commentMap flat, []).
Proof.
  assert (Hd : ∀ x, depth_of (commentMap flat) x = 0).
  { intros x. unfold depth_of. destruct (commentMap flat !! x) as [o|] eqn:E; [|done].
    by apply commentMap_lookup in E as (c&_&_&->). }
  assert (Hr : ∀ t, replies_of (commentMap flat) t = []).
  { intros x. unfold replies_of. destruct (commentMap flat !! x) as [o|] eqn:E; [|done].
    by apply commentMap_lookup in E as (c&_&_&->). }
  split_linked.
  - done.
  - apply commentMap_depths.
  - rewrite (bind_ext_in _ (λ _, [])) by (intros; apply Hr).
    by rewrite bind_const_nil.
  - intros x Hx. by apply elem_of_nil in Hx.
  - intros t x H. rewrite Hr in H. by apply elem_of_nil in H.
  - done.
Qed.

Lemma linked_is_Some done m roots k :
  linked flat done (m, roots) → is_Some (m !! k) ↔ k ∈ id <$> flat.
Proof.
  intros (R&_). simpl in R. by rewrite (recs_is_Some _ _ k R), commentMap_is_Some.
Qed.

(** Whatever sits in [rootComments] or in a [replies] array has been
    processed. *)
Lemma linked_placed done m roots x :
  linked flat done (m, roots) →
  (x ∈ roots ∨ ∃ t, x ∈ replies_of m t) → x ∈ id <$> done.
Proof.
  intros L Hx. pose proof L as (_&_&P&_). simpl in P. rewrite <- P.
  apply elem_of_app. destruct Hx as [?|[t Ht]]; [by left|right].
  apply list_elem_of_bind. exists t. split; [done|].
  apply (linked_is_Some _ _ _ _ L). unfold replies_of in Ht.
  destruct (m !! t); [eauto|by apply elem_of_nil in Ht].
Qed.

Lemma link_step_linked done c st st' :
  c ∈ flat → id c ∉ id <$> done →
  linked flat done st → link_step st c = Some st' →
  linked flat (done ++ [c]) st'.
Proof.
  intros Hc Hfresh L H. destruct st as [m roots].
  pose proof (λ x, linked_placed done m roots x L) as Hplaced.
  pose proof L as (R&Dok&P&Hroot&Hrep&Hpend). simpl in *.
  apply link_step_inv in H as [Hcw [[-> _]|(p&parent&_&Hp&->)]].
  - split_linked.
    + done.
    + done.
    + rewrite fmap_app. simpl. rewrite <- P.
      rewrite <- !app_assoc. apply Permutation_app_head.
      apply Permutation_app_comm.
    + intros x [Hx|Hx%list_elem_of_singleton]%elem_of_app; [by apply Hroot|].
      subst. by apply Hpend.
    + done.
    + intros x Hx. apply Hpend. rewrite fmap_app in Hx. set_solver.
  - destruct (attach_target_cases m p parent Hp) as [Ht _].
    set (t := attach_target m p parent) in *.
    set (d := Z.min (depth parent + 1) 2).
    assert (Hd : 1 ≤ d ≤ 2) by (apply Dok in Hp; simpl in Hp; lia).
    set (m1 := alter (set_depth d) (id c) m).
    assert (Ht1 : is_Some (m1 !! t)).
    { unfold m1. by apply lookup_alter_is_Some. }
    assert (HtD : t ∈ id <$> flat) by (by apply (linked_is_Some _ _ _ _ L)).
    assert (Hold : ∀ x, x ∈ id <$> done → x ≠ id c) by (intros x ? ->; done).
    assert (Hdep : ∀ x, x ≠ id c →
              depth_of (alter (push_reply (id c)) t m1) x = depth_of m x).
    { intros x Hx. rewrite depth_of_push. unfold m1.
      by rewrite depth_of_set_depth_ne. }
    assert (Hdc : depth_of (alter (push_reply (id c)) t m1) (id c) = d).
    { rewrite depth_of_push. unfold m1. by rewrite depth_of_set_depth_eq. }
    split_linked.
    + unfold m1. by rewrite !recs_alter.
    + apply depths_ok_alter; [done|]. apply depths_ok_alter; [|done].
      intros; simpl; lia.
    + rewrite fmap_app. simpl.
      rewrite bind_replies_push by done.
      rewrite (bind_ext_in _ (replies_of m)) by (intros; apply replies_of_set_depth).
      rewrite <- Permutation_middle, P. apply Permutation_cons_append.
    + intros x Hx. rewrite Hdep; [by apply Hroot|]. apply Hold, Hplaced; eauto.
    + intros t' x H. apply elem_of_replies_push in H as [H|[-> ->]]; [|lia].
      unfold m1 in H. rewrite replies_of_set_depth in H.
      rewrite Hdep; [by eapply Hrep|]. apply Hold, Hplaced; eauto.
    + intros x Hx. rewrite fmap_app in Hx. rewrite Hdep; [|set_solver].
      apply Hpend. set_solver.
Qed.

Lemma link_all_linked rest done st st' :
  flat = done ++ rest →
  linked flat done st → link_all st rest = Some st' → linked flat flat st'.
Proof.
  revert done st. induction rest as [|c rest IH]; intros done st E L H.
  - rewrite app_nil_r in E. by simplify_eq/=.
  - apply link_all_cons in H as (st1 & H1 & H).
    apply (IH (done ++ [c]) st1); [by rewrite <- app_assoc| |done].
    eapply link_step_linked; [| |done..].
    + rewrite E. set_solver.
    + pose proof flat_unique as Hnd. rewrite E, fmap_app, fmap_cons in Hnd.
      apply NoDup_app in Hnd as (_ & Hnd & _). intros Hin. eapply Hnd; [done|left].
Qed.

Lemma sort_pass_linked st : linked flat flat st → linked flat flat (sort_pass st).
Proof.
  destruct st as [m roots]. intros (R&Dok&P&Hroot&Hrep&Hpend).
  destruct (sort_pass_shape m roots) as [Hs Hr].
  destruct (sort_pass (m, roots)) as [m' roots'] eqn:E. simpl in *.
  split_linked.
  - by rewrite (same_shape_recs _ _ Hs).
  - by eapply same_shape_depths.
  - by rewrite Hr, (same_shape_bind _ _ _ Hs).
  - intros x Hx. rewrite (same_shape_depth _ _ x Hs). apply Hroot. by rewrite <- Hr.
  - intros t x Hx. rewrite (same_shape_depth _ _ x Hs).
    eapply Hrep, same_shape_elem_back; done.
  - intros x Hx. rewrite (same_shape_depth _ _ x Hs). by apply Hpend.
Qed.

(** The builder ends in a state where every record has been placed. *)
Lemma organizeComments_linked :
  ∃ st, organizeComments flat = Some st ∧ linked flat flat st.
Proof.
  destruct (link_all_total flat (commentMap flat) []) as [st H];
    [apply commentMap_has_id|].
  exists (sort_pass st). unfold organizeComments. rewrite H. split; [done|].
  apply sort_pass_linked. eapply (link_all_linked flat []); [done| |done].
  apply linked_start.
Qed.
End Unique.

(** *** What hangs under what *)

Lemma edges_start flat Q : edges Q (commentMap flat).
Proof.
  intros t x H. unfold replies_of in H.
  destruct (commentMap flat !! t) as [o|] eqn:E; [|by apply elem_of_nil in H].
  apply commentMap_lookup in E as (c&_&_&->). by apply elem_of_nil in H.
Qed.

Lemma link_step_edges Q m roots c st' :
  edges Q m → link_step (m, roots) c = Some st' →
  (∀ p parent, truthy (parent_id c) = Some p → m !! p = Some parent →
     Q (attach_target m p parent) (id c)) →
  edges Q st'.1.
Proof.
  intros HQ H Hnew. apply link_step_inv in H as [_ [[-> _]|(p&parent&Hc&Hp&->)]]; [done|].
  intros t x Hx. simpl in Hx.
  apply elem_of_replies_push in Hx as [Hx|[-> ->]]; [|by apply Hnew].
  rewrite replies_of_set_depth in Hx. by apply HQ.
Qed.

Lemma link_all_edges Q l st st' :
  edges Q st.1 → link_all st l = Some st' →
  (∀ m c p parent, rec <$> m = rec <$> st.1 → c ∈ l →
     truthy (parent_id c) = Some p → m !! p = Some parent →
     Q (attach_target m p parent) (id c)) →
  edges Q st'.1.
Proof.
  revert st. induction l as [|c l IH]; intros [m roots] HQ H Hnew.
  - by simplify_eq/=.
  - apply link_all_cons in H as (st1 & H1 & H).
    pose proof (link_step_recs _ _ _ _ H1) as R1.
    apply (IH st1); [|done|].
    + eapply link_step_edges; [done..|]. intros p parent ??.
      apply Hnew; [done|left|done..].
    + intros m2 c2 p parent R2 ???. apply Hnew; [|by right|done..].
      simpl. by rewrite R2, R1.
Qed.

Lemma same_shape_edges Q m m' : same_shape m m' → edges Q m → edges Q m'.
Proof. intros Hs HQ t x Hx. eapply HQ, same_shape_elem_back; done. Qed.

(** Only records whose parent resolves are pushed onto a [replies]. *)
Lemma organizeComments_resolved flat st :
  organizeComments flat = Some st → edges (λ _ x, resolved flat x) st.1.
Proof.
  unfold organizeComments. intros H.
  destruct (link_all _ flat) as [[m roots]|] eqn:E; simplify_eq/=.
  eapply same_shape_edges; [apply foldl_sort_under_shape|].
  change m with (m, roots).1.
  eapply link_all_edges; [|exact E|]; [apply edges_start|].
  simpl. intros m1 c p parent R Hc Hp Hm. exists c, p. repeat split; try done.
  apply commentMap_is_Some. eapply recs_is_Some; [symmetry; exact R|eauto].
Qed.

(** ** Unfolding the heap *)

Lemma build_nil f m : build f m [] = [].
Proof. by destruct f. Qed.

Lemma build_app f m l1 l2 : build f m (l1 ++ l2) = build f m l1 ++ build f m l2.
Proof. destruct f; [done|]. simpl. apply omap_app. Qed.

Lemma build_cons f m i l : build f m (i :: l) = build f m [i] ++ build f m l.
Proof. apply (build_app f m [i] l). Qed.

Lemma build_one_Some f m i o :
  m !! i = Some o →
  build (S f) m [i] = [Node (rec o) (depth o) (build f m (replies o))].
Proof. intros H. simpl. by rewrite H. Qed.

Lemma build_one_None f m i : m !! i = None → build f m [i] = [].
Proof. intros H. destruct f; [done|]. simpl. by rewrite H. Qed.

Lemma elem_of_build f m ids t :
  t ∈ build (S f) m ids ↔
  ∃ i o, i ∈ ids ∧ m !! i = Some o ∧
         t = Node (rec o) (depth o) (build f m (replies o)).
Proof.
  simpl. rewrite list_elem_of_omap. split.
  - intros (i & Hi & H). destruct (m !! i) as [o|] eqn:E; simplify_eq/=. eauto.
  - intros (i & o & Hi & E & ->). exists i. split; [done|]. by rewrite E.
Qed.

(** Every node of the unfolding is an object of the heap, reached from
    [ids] or through some [replies]. *)
Lemma build_nodes f m ids c d :
  (c, d) ∈ forest_nodes (build f m ids) →
  ∃ i o, (i ∈ ids ∨ ∃ t, i ∈ replies_of m t) ∧ m !! i = Some o ∧
         c = rec o ∧ d = depth o.
Proof.
  revert ids. induction f as [|f IH]; intros ids H.
  - by apply elem_of_nil in H.
  - unfold forest_nodes in H. apply list_elem_of_bind in H as (t & Hn & Ht).
    apply elem_of_build in Ht as (i & o & Hi & E & ->). simpl in Hn.
    apply elem_of_cons in Hn as [[= -> ->]|Hn]; [eauto 10|].
    apply IH in Hn as (j & o' & [Hj|Hj] & ? & ? & ?); [|eauto 10].
    exists j, o'. split; [right; exists i|done].
    unfold replies_of. by rewrite E.
Qed.

Lemma build_sorted f m ids :
  newest_first_ids (created_of m) ids → newest_first (build f m ids).
Proof.
  destruct f; [constructor|]. unfold newest_first_ids, newest_first.
  induction 1 as [|i ids Hs IH Hi]; [constructor|].
  rewrite build_cons. destruct (m !! i) as [o|] eqn:E.
  - rewrite (build_one_Some _ _ _ _ E). simpl. constructor; [done|].
    apply Forall_forall. intros t Ht.
    apply elem_of_build in Ht as (j & o' & Hj & E' & ->). simpl.
    rewrite Forall_forall in Hi. specialize (Hi j Hj).
    unfold created_of in Hi. by rewrite E, E' in Hi.
  - by rewrite (build_one_None _ _ _ E).
Qed.

(** ** The builder never fails *)

Lemma organizeComments_is_Some flat : is_Some (organizeComments flat).
Proof.
  unfold organizeComments.
  destruct (link_all_total flat (commentMap flat) []) as [st ->];
    [apply commentMap_has_id|]. by eexists.
Qed.

(** C9: [organizeComments] returns a forest for every input sequence;
    the lookup of a record's own id, on which the source puts its
    non-null assertion, succeeds for every record, because the first
    pass stored an object under that id. *)
Theorem organizeComments_total (flatComments : list Comment) :
  is_Some (organizeComments flatComments) ∧
  (∀ c, c ∈ flatComments → is_Some (commentMap flatComments !! id c)) ∧
  (∀ done c rest st, flatComments = done ++ c :: rest →
     link_all (commentMap flatComments, []) done = Some st →
     is_Some (st.1 !! id c) ∧ is_Some (link_step st c)).
Proof.
  pose proof (commentMap_has_id flatComments) as Hidx.
  split; [apply organizeComments_is_Some|split; [done|]].
  intros done c rest [m roots] E H.
  assert (Hc : is_Some (m !! id c)).
  { eapply recs_is_Some; [exact (link_all_recs _ _ _ H)|].
    apply Hidx. rewrite E. set_solver. }
  split; [done|]. by apply link_step_total.
Qed.

(** ** Order of the roots and of the replies *)

(** C7: the array of roots, the replies of every root, and the replies
    of every reply of a root are ordered by [created_at], newest first.
    The order among equal instants is fixed by the input, the builder
    being a function. *)
Theorem organized_newest_first (flatComments : list Comment) (fuel : nat) :
  ∃ F, organized fuel flatComments = Some F ∧
       newest_first F ∧
       Forall (λ r, newest_first (node_replies r) ∧
                    Forall (λ c, newest_first (node_replies c)) (node_replies r)) F.
Proof.
  destruct (organizeComments_is_Some flatComments) as [[m roots] Ho].
  unfold organized. rewrite Ho. eexists; split; [done|].
  unfold organizeComments in Ho.
  destruct (link_all _ flatComments) as [[m0 roots0]|]; [|done].
  apply (inj Some), sort_pass_sorted in Ho as (Hroots & Hrep & Hrep2).
  unfold forest. simpl. split; [by apply build_sorted|].
  destruct fuel as [|f]; [constructor|].
  apply Forall_forall. intros t Ht.
  apply elem_of_build in Ht as (r & o & Hr & E & ->). simpl.
  assert (Er : replies o = replies_of m r) by (unfold replies_of; by rewrite E).
  split.
  - apply build_sorted. rewrite Er. by apply Hrep.
  - destruct f as [|f']; [constructor|].
    apply Forall_forall. intros t Ht.
    apply elem_of_build in Ht as (c & o' & Hc & E' & ->). simpl.
    apply build_sorted.
    assert (Ec : replies o' = replies_of m c) by (unfold replies_of; by rewrite E').
    rewrite Ec. apply (Hrep2 r); [done|]. by rewrite <- Er.
Qed.

(** ** Depths *)

(** C1, as the code has it: on records with unique identifiers every
    root of the forest has depth 0 and every node below a root has
    depth 1 or 2, so that every depth is one of 0, 1, 2.  The depth of
    a reply is one more than the depth its parent had when the reply was
    processed, capped at 2; it is not the distance from the root. *)
Theorem depth_by_level (flatComments : list Comment) (fuel : nat) :
  NoDup (id <$> flatComments) →
  ∃ F, organized fuel flatComments = Some F ∧
       Forall (λ t, node_depth t = 0 ∧
                    Forall (λ n, n.2 = 1 ∨ n.2 = 2) (forest_nodes (node_replies t))) F.
Proof.
  intros Hnd. destruct (organizeComments_linked _ Hnd) as ([m roots] & Ho & L).
  unfold organized. rewrite Ho. eexists; split; [done|].
  destruct L as (_&_&_&Hroot&Hrep&_). simpl in *.
  unfold forest. simpl. destruct fuel as [|f]; [constructor|].
  apply Forall_forall. intros t Ht.
  apply elem_of_build in Ht as (r & o & Hr & E & ->). simpl. split.
  - specialize (Hroot r Hr). unfold depth_of in Hroot. by rewrite E in Hroot.
  - apply Forall_forall. intros [c d] Hn. simpl.
    apply build_nodes in Hn as (j & o' & Hj & E' & _ & ->).
    assert (∃ t, j ∈ replies_of m t) as [t Ht].
    { destruct Hj as [Hj|?]; [|done]. exists r. unfold replies_of. by rewrite E. }
    specialize (Hrep t j Ht). unfold depth_of in Hrep. rewrite E' in Hrep. lia.
Qed.

(** ** Orphans and top-level comments *)

Lemma unique_id_eq (flat : list Comment) c c' :
  NoDup (id <$> flat) → c ∈ flat → c' ∈ flat → id c = id c' → c = c'.
Proof.
  intros Hnd Hc Hc' E.
  apply list_elem_of_lookup in Hc as [i Hi]. apply list_elem_of_lookup in Hc' as [j Hj].
  assert (i = j); [|by simplify_eq].
  eapply NoDup_lookup; [exact Hnd| |]; rewrite list_lookup_fmap.
  - by rewrite Hi.
  - rewrite Hj. simpl. by rewrite E.
Qed.

(** C6: a record without [parent_id], or whose [parent_id] is the id
    of no record of the input, is one of the roots of the forest, with
    depth 0; it is not dropped.  The [id] is the unique identifier of a
    comment, so no two records of the input share one. *)
Theorem orphan_is_root (flatComments : list Comment) (c : Comment) (fuel : nat) :
  NoDup (id <$> flatComments) →
  c ∈ flatComments →
  (parent_id c = None ∨ ∃ p, parent_id c = Some p ∧ p ∉ id <$> flatComments) →
  ∃ F rs, organized (S fuel) flatComments = Some F ∧ Node c 0 rs ∈ F.
Proof.
  intros Hnd Hc Horphan.
  destruct (organizeComments_linked _ Hnd) as ([m roots] & Ho & L).
  pose proof (organizeComments_resolved _ _ Ho) as Hres. simpl in Hres.
  unfold organized. rewrite Ho. simpl.
  pose proof L as (R&_&P&Hroot&_&_). simpl in *.
  assert (Hin : id c ∈ roots).
  { assert (Hid : id c ∈ id <$> flatComments) by set_solver.
    rewrite <- P in Hid. apply elem_of_app in Hid as [?|Hid]; [done|exfalso].
    apply list_elem_of_bind in Hid as (t & Hx & _).
    destruct (Hres t _ Hx) as (c' & p & Hc' & E & Hp & Hpin).
    assert (c' = c) as -> by (by eapply unique_id_eq).
    destruct Horphan as [Hn|(q & Hq & Hnot)]; rewrite ?Hn, ?Hq in Hp; [done|].
    simpl in Hp. case_decide; simplify_eq. }
  destruct (recs_lookup m (commentMap flatComments) (id c) (fresh_obj c))
    as (o & E & Erec); [done|by apply commentMap_unique|].
  simpl in Erec.
  exists (build (S fuel) m roots), (build fuel m (replies o)). split; [done|].
  apply elem_of_build. exists (id c), o. split; [done|]. split; [done|].
  specialize (Hroot _ Hin). unfold depth_of in Hroot. rewrite E in Hroot.
  by rewrite Erec, Hroot.
Qed.

(** ** Counting the nodes *)




Lemma weight_None f m x : m !! x = None → weight f m x = 0%nat.
Proof. intros E. unfold weight. by rewrite (build_one_None _ _ _ E). Qed.



Section Ranked.
Variable rank : string → nat.
Variable M : nat.
Variable m : heap.
Hypothesis m_ranked : edges (λ t x, (rank t < rank x)%nat) m.
Hypothesis m_bounded : ∀ x, is_Some (m !! x) → (rank x ≤ M)%nat.

(** Below a record of rank [r] the heap is at most [M - r] levels
    deep: unfolding further adds nothing. *)
Lemma build_stable f ids :
  (∀ x, x ∈ ids → (M < f + rank x)%nat) → build f m ids = build (S f) m ids.
Proof.
  revert ids. induction f as [|f IH]; intros ids Hids.
  - induction ids as [|x ids IHids]; [done|].
    rewrite (build_cons 1). rewrite <- IHids by (intros; apply Hids; by right).
    rewrite build_one_None; [done|].
    destruct (m !! x) eqn:E; [|done].
    assert (rank x ≤ M)%nat by (apply m_bounded; eauto).
    assert (M < 0 + rank x)%nat by (apply Hids; left). lia.
  - induction ids as [|x ids IHids]; [done|].
    rewrite (build_cons (S f)), (build_cons (S (S f))).
    rewrite <- IHids by (intros; apply Hids; by right). f_equal.
    destruct (m !! x) as [o|] eqn:E; [|by rewrite !build_one_None].
    rewrite !(build_one_Some _ _ _ _ E). do 2 f_equal.
    apply IH. intros y Hy.
    assert (rank x < rank y)%nat.
    { apply (m_ranked x). unfold replies_of. by rewrite E. }
    assert (M < S f + rank x)%nat by (apply Hids; left). lia.
Qed.

Lemma build_stable_above f ids : (M < f)%nat → build f m ids = build (S f) m ids.
Proof. intros. apply build_stable. intros; lia. Qed.


End Ranked.

Lemma parents_ranked_spec rank flat c p :
  parents_ranked rank flat = true → c ∈ flat →
  truthy (parent_id c) = Some p → p ∈ id <$> flat →
  (rank p < rank (id c))%nat.
Proof.
  unfold parents_ranked. rewrite forallb_forall. intros H Hc Hp Hin.
  specialize (H c). rewrite Hp in H. rewrite decide_True in H by done.
  eapply bool_decide_eq_true_1, H. by apply list_elem_of_In.
Qed.

(** Replies hang under records of strictly smaller rank. *)
Lemma organizeComments_ranked rank flat st :
  parents_ranked rank flat = true →
  organizeComments flat = Some st →
  edges (λ t x, (rank t < rank x)%nat) st.1.
Proof.
  intros Hrk H. unfold organizeComments in H.
  destruct (link_all _ flat) as [[m roots]|] eqn:E; simplify_eq/=.
  eapply same_shape_edges; [apply foldl_sort_under_shape|].
  change m with (m, roots).1.
  eapply link_all_edges; [|exact E|]; [apply edges_start|].
  simpl. intros m1 c p parent R Hc Hp Hm.
  assert (Hdom : ∀ k, is_Some (m1 !! k) → k ∈ id <$> flat).
  { intros k Hk. apply commentMap_is_Some. by eapply recs_is_Some. }
  assert (rank p < rank (id c))%nat.
  { eapply parents_ranked_spec; [done..|]. apply Hdom. eauto. }
  destruct (attach_target_cases m1 p parent Hm) as [Ht [->|[Hg _]]]; [done|].
  destruct (recs_lookup _ _ _ _ R Hm) as (o & Ho & Erec).
  apply commentMap_lookup in Ho as (c' & Hc' & <- & ->). simpl in Erec.
  rewrite <- Erec in Hg.
  assert (rank (attach_target m1 (id c') parent) < rank (id c'))%nat; [|lia].
  eapply parents_ranked_spec; [done..|]. by apply Hdom.
Qed.

Lemma organizeComments_recs flat st :
  organizeComments flat = Some st → rec <$> st.1 = rec <$> commentMap flat.
Proof.
  unfold organizeComments. intros H.
  destruct (link_all _ flat) as [[m roots]|] eqn:E; simplify_eq/=.
  rewrite (same_shape_recs _ _ (foldl_sort_under_shape _ m)).
  exact (link_all_recs _ _ _ E).
Qed.

(** Past the largest rank the unfolding is complete: more fuel gives
    the same forest. *)
Lemma organized_stable rank flat fuel :
  parents_ranked rank flat = true →
  (max_rank rank flat < fuel)%nat →
  organized (S fuel) flat = organized fuel flat.
Proof.
  intros Hrk Hfuel. unfold organized.
  destruct (organizeComments flat) as [[m roots]|] eqn:Ho; [|done].
  simpl. f_equal. unfold forest. simpl. symmetry.
  apply build_stable_above with (rank := rank) (M := max_rank rank flat); [| |done].
  - exact (organizeComments_ranked _ _ _ Hrk Ho).
  - intros x Hx.
    apply (recs_is_Some _ _ x (organizeComments_recs _ _ Ho)) in Hx.
    apply commentMap_is_Some, list_elem_of_fmap in Hx as (c & -> & Hc).
    apply max_list_elem_of_le. apply list_elem_of_fmap. by exists c.
Qed.


(** ** Fields the builder does not read *)

Section Relabel.
Variable φ : Comment → Comment.
Hypothesis φ_id : ∀ c, id (φ c) = id c.
Hypothesis φ_parent : ∀ c, parent_id (φ c) = parent_id c.
Hypothesis φ_created : ∀ c, created_at (φ c) = created_at c.

Local Abbreviation relabel := (fmap (M := gmap string) (obj_map φ)).

Lemma index_fold_relabel l (m : heap) :
  foldl index_step (relabel m) (φ <$> l) = relabel (foldl index_step m l).
Proof.
  revert m. induction l as [|c l IH]; intros m; [done|].
  simpl. rewrite <- IH. f_equal. unfold index_step.
  by rewrite fmap_insert, φ_id.
Qed.

Lemma commentMap_relabel (flat : list Comment) : commentMap (φ <$> flat) = relabel (commentMap flat).
Proof.
  unfold commentMap. rewrite <- index_fold_relabel. by rewrite fmap_empty.
Qed.

Lemma relabel_alter (g : CommentObj → CommentObj) k (m : heap) :
  (∀ o, obj_map φ (g o) = g (obj_map φ o)) →
  alter g k (relabel m) = relabel (alter g k m).
Proof. intros Hg. symmetry. by apply fmap_alter. Qed.

Lemma attach_target_relabel (m : heap) p parent :
  attach_target (relabel m) p (obj_map φ parent) = attach_target m p parent.
Proof.
  unfold attach_target. simpl. rewrite φ_parent.
  destruct (1 <=? depth parent); [|done].
  destruct (truthy (parent_id (rec parent))) as [g|]; [|done].
  rewrite lookup_fmap. by destruct (m !! g).
Qed.

Lemma link_step_relabel (m : heap) roots c :
  link_step (relabel m, roots) (φ c)
  = prod_map relabel (λ r, r) <$> link_step (m, roots) c.
Proof.
  unfold link_step. rewrite φ_id, φ_parent, lookup_fmap.
  destruct (m !! id c) as [cw|]; simpl; [|done].
  destruct (truthy (parent_id c)) as [p|]; [|done].
  rewrite lookup_fmap. destruct (m !! p) as [parent|]; simpl; [|done].
  rewrite attach_target_relabel. unfold prod_map. simpl.
  by rewrite !relabel_alter.
Qed.

Lemma link_all_relabel l (m : heap) roots :
  link_all (relabel m, roots) (φ <$> l)
  = prod_map relabel (λ r, r) <$> link_all (m, roots) l.
Proof.
  revert m roots. induction l as [|c l IH]; intros m roots; [done|].
  rewrite fmap_cons.
  change (link_all (relabel m, roots) (φ c :: (φ <$> l)))
    with (link_step (relabel m, roots) (φ c) ≫= λ s, link_all s (φ <$> l)).
  change (link_all (m, roots) (c :: l))
    with (link_step (m, roots) c ≫= λ s, link_all s l).
  rewrite link_step_relabel.
  destruct (link_step (m, roots) c) as [[m1 r1]|]; simpl; [apply IH|done].
Qed.

Lemma created_of_relabel (m : heap) i : created_of (relabel m) i = created_of m i.
Proof.
  unfold created_of. rewrite lookup_fmap.
  destruct (m !! i); simpl; [apply φ_created|done].
Qed.

Lemma replies_of_relabel (m : heap) i : replies_of (relabel m) i = replies_of m i.
Proof. unfold replies_of. rewrite lookup_fmap. by destruct (m !! i). Qed.

Lemma sort_replies_relabel (m : heap) i :
  sort_replies (relabel m) i = relabel (sort_replies m i).
Proof.
  unfold sort_replies.
  rewrite (alter_ext _ (λ o, set_replies (sort_desc (created_of m) (replies o)) o)).
  - by apply relabel_alter.
  - intros o _. f_equal. apply sort_desc_ext, created_of_relabel.
Qed.

Lemma foldl_sort_replies_relabel l (m : heap) :
  foldl sort_replies (relabel m) l = relabel (foldl sort_replies m l).
Proof.
  revert m. induction l as [|i l IH]; intros m; [done|].
  simpl. by rewrite sort_replies_relabel, IH.
Qed.

Lemma sort_under_relabel (m : heap) r :
  sort_under (relabel m) r = relabel (sort_under m r).
Proof.
  unfold sort_under.
  by rewrite sort_replies_relabel, replies_of_relabel, foldl_sort_replies_relabel.
Qed.

Lemma foldl_sort_under_relabel l (m : heap) :
  foldl sort_under (relabel m) l = relabel (foldl sort_under m l).
Proof.
  revert m. induction l as [|i l IH]; intros m; [done|].
  simpl. by rewrite sort_under_relabel, IH.
Qed.

Lemma sort_pass_relabel (m : heap) roots :
  sort_pass (relabel m, roots) = prod_map relabel (λ r, r) (sort_pass (m, roots)).
Proof.
  unfold sort_pass, prod_map. simpl.
  rewrite (sort_desc_ext _ (created_of m)) by apply created_of_relabel.
  by rewrite foldl_sort_under_relabel.
Qed.

Lemma organizeComments_relabel (flat : list Comment) :
  organizeComments (φ <$> flat)
  = prod_map relabel (λ r, r) <$> organizeComments flat.
Proof.
  unfold organizeComments. rewrite commentMap_relabel, link_all_relabel.
  destruct (link_all _ flat) as [[m roots]|]; [|done].
  change (Some (sort_pass (relabel m, roots))
          = Some (prod_map relabel (λ r, r) (sort_pass (m, roots)))).
  by rewrite sort_pass_relabel.
Qed.

Lemma build_relabel f (m : heap) ids :
  build f (relabel m) ids = tree_map φ <$> build f m ids.
Proof.
  revert ids. induction f as [|f IH]; intros ids; [done|].
  induction ids as [|i ids IHids]; [done|].
  rewrite (build_cons (S f) (relabel m)), (build_cons (S f) m), fmap_app, IHids.
  f_equal. simpl. rewrite lookup_fmap.
  destruct (m !! i) as [o|]; simpl; [|done]. by rewrite IH.
Qed.

Lemma organized_relabel fuel (flat : list Comment) :
  organized fuel (φ <$> flat) = fmap (M := list) (tree_map φ) <$> organized fuel flat.
Proof.
  unfold organized. rewrite organizeComments_relabel.
  destruct (organizeComments flat) as [[m roots]|]; simpl; [|done].
  unfold forest. simpl. by rewrite build_relabel.
Qed.
End Relabel.

(** C8: the builder does not read [is_deleted].  Setting or clearing
    the flag on any records of the input gives the same forest, node
    for node, with the flags changed the same way: a soft-deleted
    record sits where it would sit if it were not deleted. *)
Theorem soft_deleted_retained (g : Comment → bool) (flatComments : list Comment)
    (fuel : nat) :
  organized fuel ((λ c, set_deleted (g c) c) <$> flatComments)
  = fmap (M := list) (tree_map (λ c, set_deleted (g c) c))
      <$> organized fuel flatComments.
Proof. by apply organized_relabel. Qed.

(** ** Evaluating the builder on a written-out heap *)

Lemma truthy_Some x : x ≠ EmptyString → truthy (Some x) = Some x.
Proof. intros. unfold truthy. by rewrite decide_False. Qed.

Lemma link_step_root m roots c :
  is_Some (m !! id c) → parent_id c = None →
  link_step (m, roots) c = Some (m, roots ++ [id c]).
Proof. intros [? E] Hp. unfold link_step. by rewrite E, Hp. Qed.

Lemma link_step_orphan m roots c p :
  is_Some (m !! id c) → parent_id c = Some p → m !! p = None →
  link_step (m, roots) c = Some (m, roots ++ [id c]).
Proof.
  intros [? E] Hp Hm. unfold link_step. rewrite E, Hp. simpl.
  unfold truthy. case_decide; [done|]. by rewrite Hm.
Qed.

Lemma link_step_reply m roots c p parent :
  is_Some (m !! id c) → parent_id c = Some p → p ≠ EmptyString →
  m !! p = Some parent →
  link_step (m, roots) c
  = Some (alter (push_reply (id c)) (attach_target m p parent)
            (alter (set_depth (Z.min (depth parent + 1) 2)) (id c) m), roots).
Proof.
  intros [? E] Hp Hne Hm. unfold link_step.
  by rewrite E, Hp, truthy_Some, Hm.
Qed.

Lemma build_step f m i ids o :
  m !! i = Some o →
  build (S f) m (i :: ids)
  = Node (rec o) (depth o) (build f m (replies o)) :: build (S f) m ids.
Proof. intros E. by rewrite build_cons, (build_one_Some _ _ _ _ E). Qed.

Lemma set_depth_mk d r l d0 : set_depth d (mkObj r l d0) = mkObj r l d.
Proof. done. Qed.

Lemma push_reply_mk x r l d : push_reply x (mkObj r l d) = mkObj r (l ++ [x]) d.
Proof. done. Qed.

Lemma set_replies_mk l' r l d : set_replies l' (mkObj r l d) = mkObj r l' d.
Proof. done. Qed.

Ltac heap_simpl :=
  repeat first
    [ rewrite lookup_insert_eq
    | rewrite lookup_insert_ne by congruence
    | rewrite lookup_empty
    | rewrite alter_insert_eq
    | rewrite alter_insert_ne by congruence
    | rewrite alter_empty
    | rewrite set_depth_mk
    | rewrite push_reply_mk
    | rewrite set_replies_mk
    | rewrite build_nil
    | erewrite build_step by (heap_simpl; reflexivity)
    | progress cbn [rec replies depth app mbind option_bind fmap option_fmap
                    option_map fst snd sort_desc foldr insert_desc foldl link_all]
    | progress unfold sortByDate, created_of, replies_of ].

Ltac link_root :=
  rewrite link_step_root; [|heap_simpl; eauto|congruence]; heap_simpl.

Ltac link_reply :=
  erewrite link_step_reply;
    [|heap_simpl; eauto|eassumption|congruence|heap_simpl; reflexivity];
  unfold attach_target; heap_simpl.

Ltac start_build :=
  unfold organized, organizeComments, commentMap; cbn [foldl];
  unfold index_step, fresh_obj; heap_simpl.

Ltac start_sort :=
  unfold sort_pass; heap_simpl; unfold sort_under, sort_replies; heap_simpl.

(** Three records, each a reply to the one before, parents first: the
    third is pushed onto the replies of the first. *)
Lemma three_in_a_row (c1 c2 c3 : Comment) (fuel : nat) :
  parent_id c1 = None → parent_id c2 = Some (id c1) → parent_id c3 = Some (id c2) →
  id c1 ≠ EmptyString → id c2 ≠ EmptyString →
  id c1 ≠ id c2 → id c1 ≠ id c3 → id c2 ≠ id c3 →
  created_at c2 < created_at c3 →
  organized (S (S fuel)) [c1; c2; c3]
  = Some [Node c1 0 [Node c3 2 []; Node c2 1 []]].
Proof.
  intros P1 P2 P3 N1 N2 D12 D13 D23 Ht.
  start_build. link_root. link_reply.
  change (1 <=? 0) with false. cbv iota. change ((0 + 1) `min` 2) with 1. heap_simpl.
  link_reply.
  change (1 <=? 1) with true. cbv iota. change ((1 + 1) `min` 2) with 2.
  rewrite P2, truthy_Some by done. heap_simpl.
  start_sort. rewrite (proj2 (Z.ltb_lt _ _)) by lia. heap_simpl.
  unfold forest. by heap_simpl.
Qed.

(** C3, as the code has it: on the three records with ids 1, 2, 3,
    each replying to the one before and each newer than it, the forest
    has the single root 1 (depth 0) with the two replies 3 (depth 2)
    and 2 (depth 1), in that order; 2 has no replies of its own. *)
Theorem three_comments_example (c1 c2 c3 : Comment) (fuel : nat) :
  id c1 = "1" → parent_id c1 = None →
  id c2 = "2" → parent_id c2 = Some "1" →
  id c3 = "3" → parent_id c3 = Some "2" →
  created_at c1 < created_at c2 < created_at c3 →
  organized (S (S fuel)) [c1; c2; c3]
  = Some [Node c1 0 [Node c3 2 []; Node c2 1 []]].
Proof.
  intros I1 P1 I2 P2 I3 P3 Ht.
  apply three_in_a_row; rewrite ?I1, ?I2, ?I3; try done. lia.
Qed.

(** X18: when the four records of a chain are given parents first,
    [A], [B], [C], [D], the cap of two levels is applied: the depths are
    0, 1, 2, 2 and [D] is a reply of [B], not of [C]; [C] itself hangs
    under [A]. *)
Theorem chain_of_four (A B C D : Comment) (fuel : nat) :
  parent_id A = None → parent_id B = Some (id A) →
  parent_id C = Some (id B) → parent_id D = Some (id C) →
  NoDup [id A; id B; id C; id D] →
  id A ≠ EmptyString → id B ≠ EmptyString → id C ≠ EmptyString →
  ∃ F, organized (S (S (S fuel))) [A; B; C; D] = Some F ∧ chain_collapsed A B C D F.
Proof.
  intros PA PB PC PD Hnd NA NB NC.
  assert (id A ≠ id B ∧ id A ≠ id C ∧ id A ≠ id D ∧ id B ≠ id C ∧ id B ≠ id D
          ∧ id C ≠ id D) as (AB & AC & AD & BC & BD & CD).
  { rewrite !NoDup_cons in Hnd. set_solver. }
  start_build. link_root. link_reply.
  change (1 <=? 0) with false. cbv iota. change ((0 + 1) `min` 2) with 1. heap_simpl.
  link_reply.
  change (1 <=? 1) with true. cbv iota. change ((1 + 1) `min` 2) with 2.
  rewrite PB, truthy_Some by done. heap_simpl.
  link_reply.
  change (1 <=? 2) with true. cbv iota. change ((2 + 1) `min` 2) with 2.
  rewrite PC, truthy_Some by done. heap_simpl.
  start_sort.
  destruct (0 <? created_at C - created_at B); heap_simpl;
    unfold sort_replies, replies_of; heap_simpl;
    unfold forest; heap_simpl; eexists; (split; [reflexivity|]);
    eexists; (split; [reflexivity|]).
  - apply Permutation_swap.
  - done.
Qed.

(** ** Inputs on which the forest differs from what was expected *)

(** The depth-as-distance reading holds of a forest that is nested as
    deep as its depths say. *)
Example depth_is_level_nested :
  forallb (depth_is_level 0)
    [Node (mk "1" None 1) 0 [Node (mk "2" (Some "1") 2) 1
       [Node (mk "3" (Some "2") 3) 2 [Node (mk "4" (Some "3") 4) 2 []]]]] = true.
Proof. reflexivity. Qed.

(** C1 fails on the three-comment chain given parents first: comment 3
    has depth 2 but hangs directly under the root. *)
Lemma depth_is_not_distance :
  NoDup (id <$> three_oldest_first) ∧
  ∃ F, organized 3 three_oldest_first = Some F ∧
       forallb (depth_is_level 0) F = false.
Proof.
  split; [apply (bool_decide_unpack _); by vm_compute|].
  eexists. split; [vm_compute; reflexivity|]. reflexivity.
Qed.


Lemma self_reply_never_shown fuel : organized fuel self_reply = Some [].
Proof. destruct fuel; vm_compute; reflexivity. Qed.

(** C3 fails as stated: comment 3 is not among the replies of 2. *)
Lemma third_is_not_under_second :
  ¬ ∃ F rs2 rs3,
      organized 3 three_oldest_first = Some F ∧
      F = [Node (mk "1" None 100) 0 [Node (mk "2" (Some "1") 200) 1 rs2]] ∧
      Node (mk "3" (Some "2") 300) 2 rs3 ∈ rs2.
Proof.
  intros (F & rs2 & rs3 & H & -> & _). vm_compute in H. discriminate H.
Qed.

(** C4: on the chain as the backend delivers it, newest first, the
    builder misses the cap its comments announce (two levels at most).
    Every reply is processed before its parent, whose [depth] is still
    the initial 0 when it is read, so [B], [C] and [D] each get depth 1
    and stay under their own parent: [D] ends up three levels below
    [A], a reply of [C], and not of [B] with depth 2. *)
Lemma newest_first_chain_not_collapsed :
  organized 4 chain_newest_first
  = Some [Node (mk "A" None 100) 0
            [Node (mk "B" (Some "A") 200) 1
               [Node (mk "C" (Some "B") 300) 1
                  [Node (mk "D" (Some "C") 400) 1 []]]]] ∧
  ¬ ∃ F, organized 4 chain_newest_first = Some F ∧
         chain_collapsed (mk "A" None 100) (mk "B" (Some "A") 200)
                         (mk "C" (Some "B") 300) (mk "D" (Some "C") 400) F.
Proof.
  split; [vm_compute; reflexivity|].
  intros (F & H & rs & -> & Hp). vm_compute in H.
  injection H as <-. apply Permutation_length in Hp. discriminate Hp.
Qed.

(** ** Loading a further page *)

Lemma view_app fuel l1 l2 : view fuel (l1 ++ l2) = view fuel l1 ++ view fuel l2.
Proof. unfold view. apply bind_app. Qed.

Lemma view_root_refs fuel (st : build_state) : view fuel (root_refs st) = forest fuel st.
Proof.
  destruct st as [m roots]. unfold view, root_refs, forest. simpl.
  induction roots as [|r roots IH]; [by rewrite build_nil|].
  rewrite fmap_cons, bind_cons, IH. symmetry. apply build_cons.
Qed.

(** C5, as the code has it: after [fetchComments(true)] the component
    holds the forest it held before, followed by the forest built from
    the newly fetched page alone. *)
Theorem loadMore_appends (postId : string) (user : option string) (s : State)
    (r : FetchReply) :
  reply_error r = false →
  ∃ organizedComments,
    organizeComments (with_likes user r <$> default [] (reply_data r))
      = Some organizedComments ∧
    comments (fetchComments postId user true s r).1
      = comments s ++ root_refs organizedComments ∧
    ∀ fuel, view fuel (comments (fetchComments postId user true s r).1)
            = view fuel (comments s) ++ forest fuel organizedComments.
Proof.
  intros Herr.
  destruct (organizeComments_is_Some (with_likes user r <$> default [] (reply_data r)))
    as [out Hout].
  exists out. split; [done|].
  unfold fetchComments. rewrite Herr, Hout. simpl. split; [done|].
  intros fuel. by rewrite view_app, view_root_refs.
Qed.

(** C5 fails as stated: a reply fetched on the first page stays a root
    when its parent arrives on the second page, whereas one build over
    both pages nests it under the parent. *)
Lemma loadMore_is_not_rebuild :
  let s1 := (fetchComments "post-1" None false start (answer page_one)).1 in
  let s2 := (fetchComments "post-1" None true s1 (answer page_two)).1 in
  view 3 (comments s2)
    = [Node (mk "reply" (Some "parent") 200) 0 []; Node (mk "parent" None 100) 0 []] ∧
  organized 3 (page_one ++ page_two)
    = Some [Node (mk "parent" None 100) 0 [Node (mk "reply" (Some "parent") 200) 1 []]] ∧
  Some (view 3 (comments s2)) ≠ organized 3 (page_one ++ page_two).
Proof.
  split; [vm_compute; reflexivity|]. split; [vm_compute; reflexivity|].
  vm_compute. discriminate.
Qed.

(** ** Submitting a comment or a reply *)

(** C10: a comment or reply that is blank after trimming, or longer
    than 1000 code units, is answered with one error notification and
    nothing else: no insert, and no state changes.  An insert is only
    sent for a non-blank text of at most 1000 code units. *)
Theorem submit_rejects_invalid (postId : string) (user : option string)
    (parentId : string) (s : State) (insertError : bool) (r : FetchReply) :
  ((trim (newComment s) = [] ∨ 1000 < js_length (newComment s)) →
     ∃ n, handleSubmit postId user s insertError r = (s, [ToastError n])) ∧
  ((∃ row, Insert row ∈ (handleSubmit postId user s insertError r).2) →
     trim (newComment s) ≠ [] ∧ js_length (newComment s) ≤ 1000) ∧
  ((trim (replyContent s) = [] ∨ 1000 < js_length (replyContent s)) →
     ∃ n, handleReplySubmit postId user parentId s insertError r = (s, [ToastError n])) ∧
  ((∃ row, Insert row ∈ (handleReplySubmit postId user parentId s insertError r).2) →
     trim (replyContent s) ≠ [] ∧ js_length (replyContent s) ≤ 1000).
Proof.
  assert (Hno : ∀ n row, Insert row ∉ [ToastError n]).
  { intros n row H. apply list_elem_of_singleton in H. discriminate H. }
  unfold handleSubmit, handleReplySubmit.
  destruct user as [uid|].
  2:{ split; [eauto|]. split; [intros [row Hrow]; by apply Hno in Hrow|].
      split; [eauto|]. intros [row Hrow]; by apply Hno in Hrow. }
  split; [|split; [|split]].
  - destruct (trim (newComment s)) eqn:Et; [eauto|].
    destruct (Z.ltb_spec 1000 (js_length (newComment s))); [eauto|].
    intros [?|?]; [done|lia].
  - destruct (trim (newComment s)) eqn:Et.
    { intros [row Hrow]; by apply Hno in Hrow. }
    destruct (Z.ltb_spec 1000 (js_length (newComment s))).
    { intros [row Hrow]; by apply Hno in Hrow. }
    intros _. split; [done|lia].
  - destruct (trim (replyContent s)) eqn:Et; [eauto|].
    destruct (Z.ltb_spec 1000 (js_length (replyContent s))); [eauto|].
    intros [?|?]; [done|lia].
  - destruct (trim (replyContent s)) eqn:Et.
    { intros [row Hrow]; by apply Hno in Hrow. }
    destruct (Z.ltb_spec 1000 (js_length (replyContent s))).
    { intros [row Hrow]; by apply Hno in Hrow. }
    intros _. split; [done|lia].
Qed.

(** ** The theorems at concrete inputs *)

Lemma depth_by_level_witness :
  ∃ F, organized 4 chain_newest_first = Some F ∧
       Forall (λ t, node_depth t = 0 ∧
                    Forall (λ n, n.2 = 1 ∨ n.2 = 2) (forest_nodes (node_replies t))) F.
Proof.
  apply (depth_by_level chain_newest_first 4).
  apply (bool_decide_unpack _). vm_compute. exact I.
Defined.


Lemma three_comments_example_witness :
  organized 2 three_oldest_first
  = Some [Node (mk "1" None 100) 0
            [Node (mk "3" (Some "2") 300) 2 []; Node (mk "2" (Some "1") 200) 1 []]].
Proof.
  apply (three_comments_example (mk "1" None 100) (mk "2" (Some "1") 200)
           (mk "3" (Some "2") 300) 0); try reflexivity.
  simpl. lia.
Defined.

Lemma chain_of_four_witness :
  ∃ F, organized 3 chain_oldest_first = Some F ∧
       chain_collapsed (mk "A" None 100) (mk "B" (Some "A") 200)
                       (mk "C" (Some "B") 300) (mk "D" (Some "C") 400) F.
Proof.
  apply (chain_of_four (mk "A" None 100) (mk "B" (Some "A") 200)
           (mk "C" (Some "B") 300) (mk "D" (Some "C") 400) 0);
    try reflexivity; try discriminate.
  apply (bool_decide_unpack _). vm_compute. exact I.
Defined.

Lemma loadMore_appends_witness :
  view 3 (comments loaded) = [Node (mk "reply" (Some "parent") 200) 0 []] ∧
  take 1 (comments (fetchComments "post-1" None true loaded (answer page_two)).1)
    = comments loaded ∧
  view 3 (comments (fetchComments "post-1" None true loaded (answer page_two)).1)
    = [Node (mk "reply" (Some "parent") 200) 0 []; Node (mk "parent" None 100) 0 []].
Proof.
  split; [vm_compute; reflexivity|].
  destruct (loadMore_appends "post-1" None loaded (answer page_two))
    as (organizedComments & Ho & Hc & Hv); [reflexivity|].
  vm_compute in Ho. injection Ho as <-.
  split.
  - rewrite Hc. vm_compute. reflexivity.
  - rewrite Hv. vm_compute. reflexivity.
Defined.

Lemma orphan_is_root_witness :
  (∃ F rs, organized 4 orphan_page = Some F ∧
           Node (mk "reply" (Some "parent") 200) 0 rs ∈ F) ∧
  (∃ F rs, organized 4 orphan_page = Some F ∧ Node (mk "A" None 100) 0 rs ∈ F).
Proof.
  assert (Hnd : NoDup (id <$> orphan_page)).
  { apply (bool_decide_unpack _). vm_compute. exact I. }
  split.
  - apply (orphan_is_root orphan_page (mk "reply" (Some "parent") 200) 3 Hnd).
    + unfold orphan_page, page_one. simpl. left.
    + right. exists "parent". split; [reflexivity|].
      apply (bool_decide_unpack _). vm_compute. exact I.
  - apply (orphan_is_root orphan_page (mk "A" None 100) 3 Hnd).
    + unfold orphan_page, page_one, chain_newest_first. simpl. do 4 right. left.
    + left. reflexivity.
Defined.

Lemma organizeComments_total_witness :
  is_Some (chain_newest_first !! 0%nat ≫= λ c, commentMap chain_newest_first !! id c) ∧
  is_Some (link_step (commentMap chain_newest_first, []) (mk "D" (Some "C") 400)).
Proof.
  destruct (organizeComments_total chain_newest_first) as (_ & Hidx & Hstep).
  split.
  - apply (Hidx (mk "D" (Some "C") 400)).
    unfold chain_newest_first. constructor.
  - apply (Hstep [] (mk "D" (Some "C") 400)
             [mk "C" (Some "B") 300; mk "B" (Some "A") 200; mk "A" None 100]
             (commentMap chain_newest_first, [])); reflexivity.
Defined.

Lemma submit_rejects_invalid_witness :
  (∃ n, handleSubmit "post-1" (Some "user-1") blank_draft false (answer [])
        = (blank_draft, [ToastError n])) ∧
  (∃ n, handleReplySubmit "post-1" (Some "user-1") "parent" long_draft false (answer [])
        = (long_draft, [ToastError n])).
Proof.
  split.
  - apply (submit_rejects_invalid "post-1" (Some "user-1") "parent" blank_draft
             false (answer [])).
    left. reflexivity.
  - apply (submit_rejects_invalid "post-1" (Some "user-1") "parent" long_draft
             false (answer [])).
    right. vm_compute. reflexivity.
Defined.

(** * Further properties of the component *)

(** ** Where the records of the input end up *)

(** A property of the second pass is established round by round. *)
Lemma link_all_invariant flat (I : list Comment → build_state → Prop) st' :
  I [] (commentMap flat, []) →
  (∀ done c rest st st1, flat = done ++ c :: rest → I done st →
     link_step st c = Some st1 → I (done ++ [c]) st1) →
  link_all (commentMap flat, []) flat = Some st' → I flat st'.
Proof.
  intros H0 Hstep.
  assert (∀ rest done st, flat = done ++ rest → I done st →
            link_all st rest = Some st' → I flat st') as G.
  { induction rest as [|c rest IH]; intros done st E HI H.
    - rewrite app_nil_r in E. by simplify_eq/=.
    - apply link_all_cons in H as (st1 & H1 & H).
      apply (IH (done ++ [c]) st1); [by rewrite <- app_assoc| |done].
      by eapply Hstep. }
  by apply (G flat []).
Qed.

Lemma organizeComments_inv flat st :
  organizeComments flat = Some st →
  ∃ st0, link_all (commentMap flat, []) flat = Some st0 ∧ st = sort_pass st0.
Proof.
  unfold organizeComments. intros H.
  destruct (link_all _ flat) as [st0|]; simplify_eq/=. eauto.
Qed.

Lemma organizeComments_obj flat st k o :
  organizeComments flat = Some st → st.1 !! k = Some o →
  rec o ∈ flat ∧ id (rec o) = k.
Proof.
  intros H Hk.
  destruct (recs_lookup _ _ _ _ (organizeComments_recs _ _ H) Hk) as (o0 & E & Er).
  apply commentMap_lookup in E as (c & Hc & Hid & ->). simpl in Er. by rewrite <- Er.
Qed.

Lemma organizeComments_depths flat st :
  organizeComments flat = Some st → depths_ok st.1.
Proof.
  intros H. apply organizeComments_inv in H as ([m roots] & H & ->).
  eapply same_shape_depths; [apply (sort_pass_shape m roots)|].
  change m with (m, roots).1. eapply link_all_depths; [|exact H].
  apply commentMap_depths.
Qed.

(** X2: whatever the input, duplicates and cycles included, every node
    of the forest carries a record of the input and a depth from 0
    to 2. *)
Theorem forest_nodes_from_input (flatComments : list Comment) (fuel : nat) :
  ∃ F, organized fuel flatComments = Some F ∧
       ∀ c d, (c, d) ∈ forest_nodes F → c ∈ flatComments ∧ 0 ≤ d ≤ 2.
Proof.
  destruct (organizeComments_is_Some flatComments) as [[m roots] Ho].
  unfold organized. rewrite Ho. eexists; split; [done|].
  intros c d Hn. apply build_nodes in Hn as (i & o & _ & E & -> & ->).
  split.
  - by destruct (organizeComments_obj _ _ _ _ Ho E).
  - exact (organizeComments_depths _ _ Ho i o E).
Qed.

Lemma is_top_resolves flat (m : heap) c :
  rec <$> m = rec <$> commentMap flat →
  is_top flat c = true ↔
  truthy (parent_id c) = None ∨ ∃ p, truthy (parent_id c) = Some p ∧ m !! p = None.
Proof.
  intros R. unfold is_top.
  destruct (truthy (parent_id c)) as [p|]; [|naive_solver].
  rewrite bool_decide_eq_true, <- commentMap_is_Some, <- (recs_is_Some _ _ p R).
  rewrite <- eq_None_not_Some. naive_solver.
Qed.

(** One round pushes onto [rootComments] exactly the top-level
    records. *)
Lemma link_step_roots flat m roots c st' :
  rec <$> m = rec <$> commentMap flat →
  link_step (m, roots) c = Some st' →
  st'.2 = roots ++ (if is_top flat c then [id c] else []).
Proof.
  intros R H. apply link_step_inv in H as [_ [[-> Htop]|(p&parent&Hc&Hp&->)]].
  - apply (is_top_resolves flat m c R) in Htop. by rewrite Htop.
  - simpl. destruct (is_top flat c) eqn:Htop; [|by rewrite app_nil_r].
    apply (is_top_resolves flat m c R) in Htop as [?|(q&?&?)]; congruence.
Qed.

Lemma link_all_roots flat st :
  link_all (commentMap flat, []) flat = Some st →
  st.2 = id <$> filter (is_top flat) flat.
Proof.
  intros H.
  apply (link_all_invariant flat
           (λ done st, rec <$> st.1 = rec <$> commentMap flat ∧
                       st.2 = id <$> filter (is_top flat) done)) in H; [by destruct H| |].
  - done.
  - intros done c rest [m roots] st1 E [R Hr] H1. simpl in *. split.
    + by rewrite (link_step_recs _ _ _ _ H1).
    + rewrite (link_step_roots flat _ _ _ _ R H1), Hr, filter_app, fmap_app.
      f_equal. rewrite filter_cons, filter_nil.
      destruct (is_top flat c); by case_decide.
Qed.

Lemma build_ids f (m : heap) ids :
  (∀ i, i ∈ ids → ∃ o, m !! i = Some o ∧ id (rec o) = i) →
  id ∘ node_comment <$> build (S f) m ids = ids.
Proof.
  induction ids as [|i ids IH]; intros H; [done|].
  destruct (H i) as (o & E & Hid); [left|].
  rewrite (build_step _ _ _ _ _ E), fmap_cons, IH by (intros; apply H; by right).
  simpl. by rewrite Hid.
Qed.

Lemma organizeComments_roots flat st :
  organizeComments flat = Some st →
  st.2 ≡ₚ id <$> filter (is_top flat) flat ∧
  ∀ i, i ∈ st.2 → ∃ o, st.1 !! i = Some o ∧ id (rec o) = i.
Proof.
  intros Ho. pose proof Ho as Hinv.
  apply organizeComments_inv in Hinv as ([m roots] & H & ->).
  pose proof (link_all_roots _ _ H) as Hr. simpl in Hr.
  destruct (sort_pass_shape m roots) as [_ Hp].
  assert (Hperm : (sort_pass (m, roots)).2 ≡ₚ id <$> filter (is_top flat) flat)
    by (by rewrite Hp, Hr).
  split; [done|]. intros i Hi. rewrite Hperm in Hi.
  apply list_elem_of_fmap in Hi as (c & -> & Hc%list_elem_of_filter).
  destruct Hc as [_ Hc].
  destruct (proj2 (recs_is_Some _ _ (id c) (organizeComments_recs _ _ Ho))) as [o E].
  { by apply commentMap_has_id. }
  exists o. split; [done|]. by destruct (organizeComments_obj _ _ _ _ Ho E).
Qed.

(** X1: whatever the input, the top level of the forest holds one node
    per record that has no [parent_id] or whose [parent_id] is the id
    of no record of the input, and no other node. *)
Theorem top_level_is_unparented (flatComments : list Comment) (fuel : nat) :
  ∃ F, organized (S fuel) flatComments = Some F ∧
       id ∘ node_comment <$> F ≡ₚ id <$> filter (is_top flatComments) flatComments.
Proof.
  destruct (organizeComments_is_Some flatComments) as [[m roots] Ho].
  destruct (organizeComments_roots _ _ Ho) as [Hp Hin]. simpl in *.
  unfold organized. rewrite Ho. eexists; split; [done|].
  unfold forest. cbn [fst snd]. by rewrite build_ids.
Qed.

(** ** The depth field and the order of the input *)

Lemma link_step_depth_ne m roots c st' k :
  link_step (m, roots) c = Some st' → k ≠ id c → depth_of st'.1 k = depth_of m k.
Proof.
  intros H Hk. apply link_step_inv in H as [_ [[-> _]|(p&parent&_&_&->)]]; [done|].
  simpl. rewrite depth_of_push. by apply depth_of_set_depth_ne.
Qed.

Lemma link_step_depth_eq m roots c st' :
  link_step (m, roots) c = Some st' →
  depth_of st'.1 (id c)
  = match (truthy (parent_id c) ≫= (m !!.)) with
    | Some parent => Z.min (depth parent + 1) 2
    | None => depth_of m (id c)
    end.
Proof.
  intros H.
  apply link_step_inv in H as [Hc [[-> [Hn|(p&Hp&Hm)]]|(p&parent&Hp&Hm&->)]].
  - by rewrite Hn.
  - rewrite Hp. simpl. by rewrite Hm.
  - rewrite Hp. simpl. rewrite Hm, depth_of_push. by apply depth_of_set_depth_eq.
Qed.

Lemma replies_first_from_spec seen done c rest p :
  replies_first_from seen (done ++ c :: rest) = true →
  truthy (parent_id c) = Some p → (p ∉ seen) ∧ (p ∉ id <$> done).
Proof.
  revert seen. induction done as [|d done IH]; intros seen H Hp; simpl in H;
    apply andb_true_iff in H as [H1 H2].
  - rewrite Hp in H1. apply bool_decide_eq_true in H1. split; [done|]. set_solver.
  - destruct (IH _ H2 Hp) as [Hs Hd]. set_solver.
Qed.

Lemma parents_first_from_spec ids seen done c rest p :
  parents_first_from ids seen (done ++ c :: rest) = true →
  truthy (parent_id c) = Some p → p ∈ ids → p ∈ seen ∨ p ∈ id <$> done.
Proof.
  revert seen. induction done as [|d done IH]; intros seen H Hp Hin; simpl in H;
    apply andb_true_iff in H as [H1 H2].
  - rewrite Hp in H1. apply bool_decide_eq_true in H1. left. by apply H1.
  - destruct (IH _ H2 Hp Hin) as [Hs|Hd]; set_solver.
Qed.

Section Ordered.
Variable flat : list Comment.
Hypothesis flat_unique : NoDup (id <$> flat).

Lemma prefix_fresh done c rest : flat = done ++ c :: rest → id c ∉ id <$> done.
Proof.
  intros E. pose proof flat_unique as Hnd. rewrite E, fmap_app, fmap_cons in Hnd.
  apply NoDup_app in Hnd as (_ & Hnd & _). intros Hin. eapply Hnd; [done|left].
Qed.

(** When replies come first, a reply finds its parent still at depth
    0: it gets depth 1 and is pushed onto the replies of that parent. *)
Lemma link_all_replies_first st :
  replies_first flat = true →
  link_all (commentMap flat, []) flat = Some st →
  linked flat flat st ∧
  ∀ t x, x ∈ replies_of st.1 t →
    depth_of st.1 x = 1 ∧
    ∃ c, c ∈ flat ∧ id c = x ∧ truthy (parent_id c) = Some t.
Proof.
  intros Hord H.
  apply (link_all_invariant flat
           (λ done st, linked flat done st ∧
              ∀ t x, x ∈ replies_of st.1 t →
                depth_of st.1 x = 1 ∧
                ∃ c, c ∈ flat ∧ id c = x ∧ truthy (parent_id c) = Some t)) in H;
    [done| |].
  - split; [by apply linked_start|]. intros t x Hx.
    by apply (edges_start flat (λ _ _, False)) in Hx.
  - intros done c rest [m roots] st1 E [L HE] H1.
    assert (Hc : c ∈ flat) by (rewrite E; set_solver).
    pose proof (prefix_fresh _ _ _ E) as Hfresh.
    split; [by eapply link_step_linked|].
    pose proof (λ x, linked_placed flat done m roots x L) as Hplaced.
    pose proof L as (_&_&_&_&_&Hpend). simpl in HE, Hpend.
    pose proof H1 as Hinv.
    apply link_step_inv in Hinv as [Hcw [[-> _]|(p&parent&Hp&Hm&->)]]; [done|].
    destruct (replies_first_from_spec [] done c rest p) as [_ Hnew];
      [by rewrite <- E|done|].
    assert (Hd0 : depth parent = 0).
    { specialize (Hpend p Hnew). unfold depth_of in Hpend. by rewrite Hm in Hpend. }
    assert (Ht : attach_target m p parent = p).
    { unfold attach_target. by rewrite Hd0. }
    rewrite Ht, Hd0. simpl. intros t x Hx.
    apply elem_of_replies_push in Hx as [Hx|[-> ->]].
    + rewrite replies_of_set_depth in Hx.
      rewrite depth_of_push, depth_of_set_depth_ne; [by apply HE|].
      intros <-. apply Hfresh, Hplaced. eauto.
    + rewrite depth_of_push, depth_of_set_depth_eq by done. eauto.
Qed.

(** When parents come first, the depth of a reply is fixed from the
    final depth of its parent. *)
Lemma link_all_parents_first st :
  parents_first flat = true →
  link_all (commentMap flat, []) flat = Some st →
  ∀ c, c ∈ flat →
    depth_of st.1 (id c)
    = match (truthy (parent_id c) ≫= (commentMap flat !!.)) with
      | Some _ => Z.min (depth_of st.1 (default (id c) (truthy (parent_id c))) + 1) 2
      | None => 0
      end.
Proof.
  intros Hord H.
  apply (link_all_invariant flat
           (λ done st, linked flat done st ∧
              ∀ c, c ∈ done →
                depth_of st.1 (id c)
                = match (truthy (parent_id c) ≫= (commentMap flat !!.)) with
                  | Some _ =>
                      Z.min (depth_of st.1 (default (id c) (truthy (parent_id c))) + 1) 2
                  | None => 0
                  end)) in H; [by destruct H| |].
  - split; [by apply linked_start|]. intros c Hc. by apply elem_of_nil in Hc.
  - intros done c rest [m roots] st1 E [L HD] H1.
    assert (Hc : c ∈ flat) by (rewrite E; set_solver).
    pose proof (prefix_fresh _ _ _ E) as Hfresh.
    split; [by eapply link_step_linked|].
    pose proof L as (R&_&_&_&_&Hpend). simpl in R, HD, Hpend.
    assert (Hearlier : ∀ done' c' rest' p, flat = done' ++ c' :: rest' →
              truthy (parent_id c') = Some p → is_Some (commentMap flat !! p) →
              p ∈ id <$> done').
    { intros done' c' rest' p E' Hp Hin. apply commentMap_is_Some in Hin.
      destruct (parents_first_from_spec (id <$> flat) [] done' c' rest' p)
        as [Hs|?]; [by rewrite <- E'|done..|by apply elem_of_nil in Hs|done]. }
    intros c' [Hc'|Hc'%list_elem_of_singleton]%elem_of_app.
    + assert (id c' ≠ id c) by (intros Heq; apply Hfresh; rewrite <- Heq; set_solver).
      rewrite (link_step_depth_ne _ _ _ _ _ H1) by done. rewrite (HD c' Hc').
      destruct (truthy (parent_id c')) as [p|] eqn:Hp; [|done]. simpl.
      destruct (commentMap flat !! p) eqn:Hm; [|done].
      rewrite (link_step_depth_ne _ _ _ _ p H1); [done|].
      apply list_elem_of_split in Hc' as (d1 & d2 & ->).
      assert (p ∈ id <$> d1).
      { eapply (Hearlier d1 c' (d2 ++ c :: rest)); [|done|eauto].
        by rewrite E, <- app_assoc. }
      intros ->. apply Hfresh. rewrite fmap_app. set_solver.
    + subst c'. rewrite (link_step_depth_eq _ _ _ _ H1).
      destruct (truthy (parent_id c)) as [p|] eqn:Hp; simpl; [|by apply Hpend].
      destruct (m !! p) as [parent|] eqn:Hm.
      * destruct (recs_lookup _ _ _ _ R Hm) as (o & Ho & _). rewrite Ho.
        assert (p ∈ id <$> done) by (eapply Hearlier; eauto).
        rewrite (link_step_depth_ne _ _ _ _ p H1) by (intros ->; done).
        unfold depth_of. by rewrite Hm.
      * assert (commentMap flat !! p = None) as ->; [|by apply Hpend].
        apply eq_None_not_Some. rewrite <- (recs_is_Some _ _ p R).
        by rewrite Hm; intros [? ?].
Qed.
End Ordered.

Lemma truthy_Some_inv p s : truthy p = Some s → p = Some s ∧ s ≠ EmptyString.
Proof. destruct p as [x|]; simpl; [|done]. case_decide; naive_solver. Qed.

Lemma build_subtrees f (m : heap) ids t :
  t ∈ build f m ids ≫= subtrees →
  ∃ i o f', m !! i = Some o ∧ t = Node (rec o) (depth o) (build f' m (replies o)).
Proof.
  revert ids t. induction f as [|f IH]; intros ids t H.
  - by apply elem_of_nil in H.
  - apply list_elem_of_bind in H as (t0 & Ht & Ht0).
    apply elem_of_build in Ht0 as (i & o & _ & E & ->). simpl in Ht.
    apply elem_of_cons in Ht as [->|Ht]; [eauto|]. by eapply IH.
Qed.

(** X3: on records with unique identifiers given replies first, which
    is how a page ordered newest first arrives, the forest follows the
    parent references exactly: every node below a root has depth 1 and
    hangs directly under the record its [parent_id] names, however
    long the chain of replies is. *)
Theorem replies_first_nest_under_parent (flatComments : list Comment) (fuel : nat) :
  NoDup (id <$> flatComments) →
  replies_first flatComments = true →
  ∃ F, organized fuel flatComments = Some F ∧
       ∀ t r, t ∈ F ≫= subtrees → r ∈ node_replies t →
         node_depth r = 1 ∧ parent_id (node_comment r) = Some (id (node_comment t)).
Proof.
  intros Hnd Hord.
  destruct (organizeComments_is_Some flatComments) as [[m roots] Ho].
  unfold organized. rewrite Ho. eexists; split; [done|].
  pose proof Ho as Hinv. apply organizeComments_inv in Hinv as ([m0 roots0] & H & Est).
  destruct (link_all_replies_first _ Hnd _ Hord H) as [_ HE]. simpl in HE.
  destruct (sort_pass_shape m0 roots0) as [Hs _]. rewrite <- Est in Hs. simpl in Hs.
  intros t r Ht Hr. unfold forest in Ht. simpl in Ht.
  apply build_subtrees in Ht as (i & o & f' & E & ->). simpl in *.
  destruct f' as [|f']; [by apply elem_of_nil in Hr|].
  apply elem_of_build in Hr as (j & o' & Hj & E' & ->). simpl.
  assert (Hj0 : j ∈ replies_of m0 i).
  { eapply same_shape_elem_back; [exact Hs|]. unfold replies_of. by rewrite E. }
  destruct (HE _ _ Hj0) as (Hd & c & Hc & Hid & Hp).
  rewrite <- (same_shape_depth _ _ j Hs) in Hd. unfold depth_of in Hd. rewrite E' in Hd.
  split; [done|].
  destruct (organizeComments_obj _ _ _ _ Ho E) as [_ Hi].
  destruct (organizeComments_obj _ _ _ _ Ho E') as [Hin' Hj'].
  assert (c = rec o') as -> by (eapply unique_id_eq; [done..|congruence]).
  apply truthy_Some_inv in Hp as [-> _]. by rewrite Hi.
Qed.

(** The chain of parents of a record at position [k] of an input given
    parents first is at most [k] long. *)
Lemma parents_first_depth flat st :
  NoDup (id <$> flat) → parents_first flat = true →
  link_all (commentMap flat, []) flat = Some st →
  ∀ n done c rest fuel, length done = n → flat = done ++ c :: rest →
    (n < fuel)%nat →
    depth_of st.1 (id c) = Z.min 2 (chain_length fuel flat c).
Proof.
  intros Hnd Hord H.
  pose proof (link_all_parents_first _ Hnd _ Hord H) as Hrule.
  induction n as [n IH] using lt_wf_ind.
  intros done c rest fuel Hn E Hfuel.
  assert (Hc : c ∈ flat) by (rewrite E; set_solver).
  rewrite (Hrule c Hc). destruct fuel as [|fuel]; [lia|]. simpl.
  destruct (truthy (parent_id c)) as [p|] eqn:Hp; simpl; [|done].
  destruct (commentMap flat !! p) as [o|] eqn:Hm.
  - apply commentMap_lookup in Hm as (c' & Hc' & Hid & _).
    destruct (find _ flat) as [c''|] eqn:Hf.
    2:{ eapply find_none in Hf; [|by apply list_elem_of_In].
        by rewrite bool_decide_eq_false in Hf. }
    apply find_some in Hf as [Hin Hb]. apply list_elem_of_In in Hin.
    apply bool_decide_eq_true in Hb.
    assert (c'' = c') as -> by (eapply unique_id_eq; [done..|congruence]).
    destruct (parents_first_from_spec (id <$> flat) [] done c rest p) as [Hs|Hd];
      [by rewrite <- E|done| |by apply elem_of_nil in Hs|].
    { apply list_elem_of_fmap. eauto. }
    apply list_elem_of_fmap in Hd as (d & Hdid & Hdin).
    assert (d = c') as ->.
    { eapply unique_id_eq; [done| |done|congruence]. rewrite E. set_solver. }
    apply list_elem_of_split in Hdin as (d1 & d2 & ->).
    rewrite <- Hid.
    rewrite (IH (length d1) ltac:(rewrite <- Hn, length_app; simpl; lia)
               d1 c' (d2 ++ c :: rest) fuel eq_refl).
    + lia.
    + by rewrite E, <- app_assoc.
    + rewrite <- Hn, length_app in Hfuel. simpl in Hfuel. lia.
  - destruct (find _ flat) as [c''|] eqn:Hf; [|done].
    apply find_some in Hf as [Hin Hb]. apply list_elem_of_In in Hin.
    apply bool_decide_eq_true in Hb.
    assert (is_Some (commentMap flat !! p)) as [? ?]; [|congruence].
    rewrite <- Hb. by apply commentMap_has_id.
Qed.

(** X4: on records with unique identifiers given parents first, the
    depth of every node of the forest is the number of its ancestors in
    the input, capped at 2. *)
Theorem parents_first_depth_is_chain_length (flatComments : list Comment)
    (fuel : nat) :
  NoDup (id <$> flatComments) →
  parents_first flatComments = true →
  ∃ F, organized fuel flatComments = Some F ∧
       ∀ c d, (c, d) ∈ forest_nodes F →
         d = Z.min 2 (chain_length (length flatComments) flatComments c).
Proof.
  intros Hnd Hord.
  destruct (organizeComments_is_Some flatComments) as [[m roots] Ho].
  unfold organized. rewrite Ho. eexists; split; [done|].
  pose proof Ho as Hinv. apply organizeComments_inv in Hinv as ([m0 roots0] & H & Est).
  destruct (sort_pass_shape m0 roots0) as [Hs _]. rewrite <- Est in Hs. simpl in Hs.
  intros c d Hn. apply build_nodes in Hn as (i & o & _ & E & -> & ->).
  destruct (organizeComments_obj _ _ _ _ Ho E) as [Hin Hi].
  apply list_elem_of_split in Hin as (l1 & l2 & Hsplit).
  pose proof (parents_first_depth _ _ Hnd Hord H (length l1) l1 (rec o) l2
                (length flatComments) eq_refl Hsplit) as Hd.
  rewrite <- Hd.
  - rewrite <- (same_shape_depth _ _ _ Hs), Hi. unfold depth_of. simpl in E.
    by rewrite E.
  - rewrite Hsplit, length_app. simpl. lia.
Qed.

(** ** What [trim] removes *)

Lemma trim_start_spaces s : ∃ ws, s = ws ++ trim_start s ∧ all_space ws.
Proof.
  induction s as [|u s (ws & E & Hws)]; [exists []; split; [done|constructor]|].
  simpl. destruct (is_space u) eqn:Hu; [|exists []; split; [done|constructor]].
  exists (u :: ws). split; [by rewrite E at 1|]. by constructor.
Qed.

Lemma trim_start_head s u : head (trim_start s) = Some u → is_space u = false.
Proof.
  induction s as [|v s IH]; simpl; [done|].
  destruct (is_space v) eqn:Hv; [done|]. by intros [= <-].
Qed.

Lemma trim_start_snoc l u :
  is_space u = false → trim_start (l ++ [u]) = trim_start l ++ [u].
Proof.
  intros Hu. induction l as [|v l IH]; simpl; [by rewrite Hu|].
  by destruct (is_space v).
Qed.

Lemma trim_start_last s : trim_start s ≠ [] → last (trim_start s) = last s.
Proof.
  destruct (trim_start_spaces s) as (ws & E & _). intros Hne.
  rewrite E at 2. rewrite last_app. by destruct (last (trim_start s)) eqn:Hl;
    [|apply last_None in Hl].
Qed.

(** [trim] takes white space off both ends and nothing else. *)
Lemma trim_spec s :
  ∃ ws1 ws2, s = ws1 ++ trim s ++ ws2 ∧ all_space ws1 ∧ all_space ws2 ∧ trimmed (trim s).
Proof.
  destruct (trim_start_spaces s) as (ws1 & E1 & H1).
  destruct (trim_start_spaces (reverse (trim_start s))) as (ws2 & E2 & H2).
  exists ws1, (reverse ws2). unfold trim.
  set (t := trim_start s) in *. set (x := trim_start (reverse t)) in *.
  split; [|split; [done|split]].
  - rewrite <- reverse_app, <- E2, reverse_involutive. done.
  - unfold all_space in *. rewrite Forall_forall in *. intros u Hu.
    apply H2. by apply elem_of_reverse.
  - split; intros u Hu.
    + rewrite head_reverse in Hu.
      assert (x ≠ []) by (intros Hx; by rewrite Hx in Hu).
      unfold x in Hu. rewrite trim_start_last, last_reverse in Hu by done.
      by apply (trim_start_head s).
    + rewrite last_reverse in Hu. by apply (trim_start_head (reverse t)).
Qed.

Lemma trim_length s : js_length (trim s) ≤ js_length s.
Proof.
  destruct (trim_spec s) as (ws1 & ws2 & E & _). unfold js_length.
  rewrite E at 2. rewrite !length_app. lia.
Qed.

(** A text that starts with a character other than white space keeps
    its start. *)
Lemma trim_cons (u : N) (w : jsstring) :
  is_space u = false → trim (u :: w) = u :: reverse (trim_start (reverse w)).
Proof.
  intros Hu. unfold trim. simpl. rewrite Hu, reverse_cons.
  by rewrite trim_start_snoc, reverse_snoc.
Qed.

(** ** What the submit handlers send *)

Lemma fetchComments_effects postId user (loadMore : bool) s r :
  ∃ q, (q = Select postId (if loadMore then offset s else 0)
              ((if loadMore then offset s else 0) + COMMENTS_PER_PAGE - 1)) ∧
       ((fetchComments postId user loadMore s r).2 = [q] ∨
        (fetchComments postId user loadMore s r).2
          = [q; ConsoleError LoadFailed; ToastError LoadFailed]).
Proof.
  eexists. split; [reflexivity|]. unfold fetchComments.
  destruct (reply_error r); [by right|].
  destruct (organizeComments _); [by left|by right].
Qed.

Lemma fetchComments_no_insert postId user loadMore s r row :
  Insert row ∉ (fetchComments postId user loadMore s r).2.
Proof.
  destruct (fetchComments_effects postId user loadMore s r) as (q & -> & [-> | ->]);
    set_solver.
Qed.

(** X5: whatever either submit handler inserts is the draft with the
    white space at both ends removed and nothing else changed; it is
    not empty, at most 1000 code units long, and is sent for the post
    of the section in the name of the logged-in user, under the comment
    replied to or under no comment. *)
Theorem inserted_rows_are_trimmed (postId : string) (user : option string)
    (parentId : string) (s : State) (insertError : bool) (r : FetchReply)
    (row : NewRow) :
  (Insert row ∈ (handleSubmit postId user s insertError r).2 →
     row = mkRow postId (row_user_id row) (trim (newComment s)) None ∧
     user = Some (row_user_id row) ∧
     ∃ ws1 ws2, newComment s = ws1 ++ row_content row ++ ws2 ∧
                all_space ws1 ∧ all_space ws2 ∧ trimmed (row_content row) ∧
                row_content row ≠ [] ∧ js_length (row_content row) ≤ 1000) ∧
  (Insert row ∈ (handleReplySubmit postId user parentId s insertError r).2 →
     row = mkRow postId (row_user_id row) (trim (replyContent s)) (Some parentId) ∧
     user = Some (row_user_id row) ∧
     ∃ ws1 ws2, replyContent s = ws1 ++ row_content row ++ ws2 ∧
                all_space ws1 ∧ all_space ws2 ∧ trimmed (row_content row) ∧
                row_content row ≠ [] ∧ js_length (row_content row) ≤ 1000).
Proof.
  assert (Hno : ∀ n, Insert row ∉ [ToastError n]) by set_solver.
  assert (Hsent : ∀ uid draft parent,
            trim draft ≠ [] → js_length draft ≤ 1000 →
            row = mkRow postId uid (trim draft) parent →
            row = mkRow postId (row_user_id row) (trim draft) parent ∧
            Some uid = Some (row_user_id row) ∧
            ∃ ws1 ws2, draft = ws1 ++ row_content row ++ ws2 ∧
                all_space ws1 ∧ all_space ws2 ∧ trimmed (row_content row) ∧
                row_content row ≠ [] ∧ js_length (row_content row) ≤ 1000).
  { intros uid draft parent Hne Hlen ->. simpl. split; [done|]. split; [done|].
    destruct (trim_spec draft) as (ws1 & ws2 & E & H1 & H2 & Ht).
    exists ws1, ws2. pose proof (trim_length draft).
    split; [done|]. split; [done|]. split; [done|]. split; [done|].
    split; [done|lia]. }
  unfold handleSubmit, handleReplySubmit.
  destruct user as [uid|]; [|split; intros Hi; by apply Hno in Hi].
  split.
  - destruct (trim (newComment s)) eqn:Et; [intros Hi; by apply Hno in Hi|].
    destruct (Z.ltb_spec 1000 (js_length (newComment s))) as [|Hlen];
      [intros Hi; by apply Hno in Hi|].
    rewrite <- Et. intros Hin. apply Hsent; [by rewrite Et|done|].
    destruct insertError; [set_solver|].
    destruct (fetchComments _ _ _ _ _) as [s3 es] eqn:Ef. simpl in Hin.
    pose proof (fetchComments_no_insert postId (Some uid) false
                  (set_submitting false
                     (set_offset 0 (set_newComment [] (set_submitting true s)))) r row)
      as Hn. rewrite Ef in Hn. set_solver.
  - destruct (trim (replyContent s)) eqn:Et; [intros Hi; by apply Hno in Hi|].
    destruct (Z.ltb_spec 1000 (js_length (replyContent s))) as [|Hlen];
      [intros Hi; by apply Hno in Hi|].
    rewrite <- Et. intros Hin. apply Hsent; [by rewrite Et|done|].
    destruct insertError; [set_solver|].
    destruct (fetchComments _ _ _ _ _) as [s3 es] eqn:Ef. simpl in Hin.
    pose proof (fetchComments_no_insert postId (Some uid) false
                  (set_submitting false
                     (set_replyingTo None
                        (set_replyContent [] (set_submitting true s)))) r row)
      as Hn. rewrite Ef in Hn. set_solver.
Qed.

Lemma fetchComments_keeps_form postId user loadMore s r :
  let s' := (fetchComments postId user loadMore s r).1 in
  newComment s' = newComment s ∧ replyContent s' = replyContent s ∧
  replyingTo s' = replyingTo s ∧ submitting s' = submitting s ∧ loading s' = false.
Proof.
  unfold fetchComments. destruct (reply_error r); [done|].
  destruct (organizeComments _); [|done]. by destruct loadMore.
Qed.

(** X6: pressing the reply button of a comment and submitting without
    typing sends a reply: the box was filled with the mention, so the
    blank check does not fire, and the text inserted is the at-sign
    followed by the name, under the comment the button belongs to. *)
Theorem reply_button_then_submit (postId uid commentId : string)
    (username : jsstring) (s : State) (insertError : bool) (r : FetchReply) :
  js_length username ≤ 998 →
  replyingTo (handleReplyClick commentId username s) = Some commentId ∧
  ∃ es, (handleReplySubmit postId (Some uid) commentId
           (handleReplyClick commentId username s) insertError r).2
        = Insert (mkRow postId uid (64%N :: reverse (trim_start (reverse username)))
                    (Some commentId)) :: es.
Proof.
  intros Hlen. split; [done|]. unfold handleReplySubmit, handleReplyClick. simpl.
  rewrite trim_cons by done. rewrite reverse_snoc. simpl.
  destruct (Z.ltb_spec 1000 (js_length (64%N :: username ++ [32%N]))) as [Hl|_].
  { unfold js_length in *. simpl in Hl. rewrite length_app in Hl. simpl in Hl. lia. }
  destruct insertError; [eauto|].
  destruct (fetchComments _ _ _ _ _). eauto.
Qed.

(** X7: neither submit handler leaves the form locked: when it was
    not submitting before, it is not submitting after, whatever the
    backend answered.  The draft is emptied only when an insert was
    sent and answered without error; it survives a rejected or failed
    submit. *)
Theorem submit_leaves_form_usable (postId : string) (user : option string)
    (parentId : string) (s : State) (insertError : bool) (r : FetchReply) :
  submitting s = false →
  let s1 := (handleSubmit postId user s insertError r).1 in
  let s2 := (handleReplySubmit postId user parentId s insertError r).1 in
  submitting s1 = false ∧ submitting s2 = false ∧
  (newComment s1 = newComment s ∨
   newComment s1 = [] ∧ insertError = false ∧
   ∃ row, Insert row ∈ (handleSubmit postId user s insertError r).2) ∧
  (replyContent s2 = replyContent s ∧ replyingTo s2 = replyingTo s ∨
   replyContent s2 = [] ∧ replyingTo s2 = None ∧ insertError = false ∧
   ∃ row, Insert row ∈ (handleReplySubmit postId user parentId s insertError r).2).
Proof.
  intros Hs. unfold handleSubmit, handleReplySubmit.
  destruct user as [uid|]; [|simpl; split; [done|]; split; [done|]; split; by left].
  split; [|split; [|split]].
  - destruct (trim (newComment s)); [done|]. destruct (_ <? _); [done|].
    destruct insertError; [done|].
    destruct (fetchComments_keeps_form postId (Some uid) false
                (set_submitting false
                   (set_offset 0 (set_newComment [] (set_submitting true s)))) r)
      as (_&_&_&Hsb&_).
    by destruct (fetchComments _ _ _ _ _).
  - destruct (trim (replyContent s)); [done|]. destruct (_ <? _); [done|].
    destruct insertError; [done|].
    destruct (fetchComments_keeps_form postId (Some uid) false
                (set_submitting false
                   (set_replyingTo None
                      (set_replyContent [] (set_submitting true s)))) r)
      as (_&_&_&Hsb&_).
    by destruct (fetchComments _ _ _ _ _).
  - destruct (trim (newComment s)); [by left|]. destruct (_ <? _); [by left|].
    destruct insertError; [by left|]. right.
    destruct (fetchComments_keeps_form postId (Some uid) false
                (set_submitting false
                   (set_offset 0 (set_newComment [] (set_submitting true s)))) r)
      as (Hn&_).
    destruct (fetchComments _ _ _ _ _). simpl in *.
    split; [done|]. split; [done|]. eexists. left.
  - destruct (trim (replyContent s)); [by left|]. destruct (_ <? _); [by left|].
    destruct insertError; [by left|]. right.
    destruct (fetchComments_keeps_form postId (Some uid) false
                (set_submitting false
                   (set_replyingTo None
                      (set_replyContent [] (set_submitting true s)))) r)
      as (_&Hc&Hr&_).
    destruct (fetchComments _ _ _ _ _). simpl in *.
    split; [done|]. split; [done|]. split; [done|]. eexists. left.
Qed.

(** ** Loading pages *)

Lemma fetchComments_ok postId user (loadMore : bool) s r :
  reply_error r = false →
  ∃ out,
    organizeComments (with_likes user r <$> default [] (reply_data r)) = Some out ∧
    (fetchComments postId user loadMore s r).2
      = [Select postId (if loadMore then offset s else 0)
           ((if loadMore then offset s else 0) + COMMENTS_PER_PAGE - 1)] ∧
    comments (fetchComments postId user loadMore s r).1
      = (if loadMore then comments s else []) ++ root_refs out ∧
    offset (fetchComments postId user loadMore s r).1
      = (if loadMore then offset s + COMMENTS_PER_PAGE else offset s).
Proof.
  intros Herr.
  destruct (organizeComments_is_Some (with_likes user r <$> default [] (reply_data r)))
    as [out Hout].
  exists out. split; [done|]. unfold fetchComments. rewrite Herr, Hout.
  by destruct loadMore.
Qed.

Lemma loadMore_clicks_requests postId user s rs :
  Forall (λ r, reply_error r = false) rs →
  (loadMore_clicks postId user s rs).2
    = (λ k, Select postId (offset s + 20 * Z.of_nat k)
                          (offset s + 20 * Z.of_nat k + 19)) <$> seq 0 (length rs) ∧
  offset (loadMore_clicks postId user s rs).1 = offset s + 20 * Z.of_nat (length rs).
Proof.
  intros Hrs. revert s. induction Hrs as [|r rs Hr _ IH]; intros s.
  - simpl. split; [done|lia].
  - destruct (fetchComments_ok postId user true s r Hr) as (out & _ & Hes & _ & Hoff).
    cbn [loadMore_clicks].
    destruct (fetchComments postId user true s r) as [s1 es1]. simpl in Hes, Hoff.
    destruct (IH s1) as [IH1 IH2].
    destruct (loadMore_clicks postId user s1 rs) as [s2 es2]. simpl in *.
    subst es1 es2. unfold COMMENTS_PER_PAGE in *. rewrite IH2, Hoff. split; [|lia].
    simpl. f_equal; [f_equal; lia|].
    rewrite <- fmap_S_seq, <- list_fmap_compose.
    apply list_fmap_ext. intros _ k _. simpl. f_equal; lia.
Qed.

(** X8: the first load leaves [offset] at 0, so the first press of the
    load-more button asks for rows 0 to 19 again, and press number k
    (counting from 1) asks for the page that starts at row 20(k-1):
    paging runs one page behind. *)
Theorem loadMore_lags_one_page (postId : string) (user : option string)
    (s : State) (r0 : FetchReply) (rs : list FetchReply) :
  offset s = 0 →
  reply_error r0 = false →
  Forall (λ r, reply_error r = false) rs →
  (fetchComments postId user false s r0).2
    ++ (loadMore_clicks postId user (fetchComments postId user false s r0).1 rs).2
  = Select postId 0 19
      :: ((λ k, Select postId (20 * Z.of_nat k) (20 * Z.of_nat k + 19))
            <$> seq 0 (length rs)).
Proof.
  intros Hoff H0 Hrs.
  destruct (fetchComments_ok postId user false s r0 H0) as (out & _ & -> & _ & Hoff1).
  destruct (loadMore_clicks_requests postId user
              (fetchComments postId user false s r0).1 rs Hrs) as [-> _].
  rewrite Hoff1, Hoff. done.
Qed.

Lemma with_likes_keeps user r c :
  id (with_likes user r c) = id c ∧
  parent_id (with_likes user r c) = parent_id c ∧
  created_at (with_likes user r c) = created_at c ∧
  is_deleted (with_likes user r c) = is_deleted c ∧
  content (with_likes user r c) = content c.
Proof. unfold with_likes. by destruct (is_deleted c) eqn:E; simpl; rewrite ?E. Qed.

(** X9: in a freshly loaded forest a deleted comment carries no
    likes and is not marked as liked, whatever the backend holds for
    it, and without a logged-in user no comment is marked as liked. *)
Theorem fresh_load_likes (postId : string) (user : option string) (s : State)
    (r : FetchReply) (fuel : nat) (c : Comment) (d : Z) :
  reply_error r = false →
  (c, d) ∈ forest_nodes (view fuel (comments (fetchComments postId user false s r).1)) →
  (is_deleted c = true → likes_count c = 0 ∧ is_liked c = false) ∧
  (user = None → is_liked c = false).
Proof.
  intros Herr Hn.
  destruct (fetchComments_ok postId user false s r Herr) as (out & Ho & _ & Hc & _).
  rewrite Hc in Hn. simpl in Hn. rewrite view_root_refs in Hn.
  apply build_nodes in Hn as (i & o & _ & E & -> & _).
  destruct (organizeComments_obj _ _ _ _ Ho E) as [Hin _].
  apply list_elem_of_fmap in Hin as (row & -> & _).
  unfold with_likes. destruct (is_deleted row) eqn:Hd; simpl; rewrite ?Hd.
  - done.
  - split; [done|]. by intros ->.
Qed.

Lemma is_top_fmap (φ : Comment → Comment) (l k : list Comment) :
  (∀ c, id (φ c) = id c) → (∀ c, parent_id (φ c) = parent_id c) →
  length (filter (is_top (φ <$> l)) (φ <$> k)) = length (filter (is_top l) k).
Proof.
  intros Hid Hp.
  assert (Hids : id <$> (φ <$> l) = id <$> l).
  { rewrite <- list_fmap_compose. apply list_fmap_ext. intros; apply Hid. }
  assert (Htop : ∀ c, is_top (φ <$> l) (φ c) = is_top l c).
  { intros c. unfold is_top. by rewrite Hp, Hids. }
  induction k as [|c k IH]; [done|].
  rewrite fmap_cons, !filter_cons, Htop.
  destruct (is_top l c); repeat case_decide; simpl; try done; by rewrite IH.
Qed.

(** X10: the number in the heading counts the top-level entries only.
    After a load it is the number of fetched rows whose parent is not
    on the same page, added to the previous number when more was
    loaded; replies nested under a parent of their page are not
    counted. *)
Theorem header_counts_top_level (postId : string) (user : option string)
    (loadMore : bool) (s : State) (r : FetchReply) :
  reply_error r = false →
  headerCount (fetchComments postId user loadMore s r).1
  = ((if loadMore then headerCount s else 0)
     + length (filter (is_top (default [] (reply_data r))) (default [] (reply_data r))))%nat.
Proof.
  intros Herr.
  destruct (fetchComments_ok postId user loadMore s r Herr) as (out & Ho & _ & Hc & _).
  unfold headerCount. rewrite Hc, length_app. unfold root_refs. rewrite length_fmap.
  destruct (organizeComments_roots _ _ Ho) as [Hp _].
  rewrite (Permutation_length Hp), length_fmap, is_top_fmap;
    [|intros c; apply with_likes_keeps..].
  by destruct loadMore.
Qed.

(** ** Editing, deleting and liking *)

Lemma requests_Did (es : list effect) : requests (Did <$> es) = [].
Proof. induction es as [|e es IH]; [done|]. by rewrite fmap_cons. Qed.

(** X11: [handleUpdate] sends one update, carrying the edited text
    with the white space at both ends removed, exactly when that text
    is not blank and the edit is at most 1000 code units long, also
    when nobody is logged in.  The editor closes only when the update
    was sent and answered without error; a rejected or failed edit
    stays in the editor and the comments stay as they were. *)
Theorem update_keeps_failed_edit (postId : string) (user : option string)
    (commentId : string) (now : Z) (s : State) (ed : Editor) (updateError : bool)
    (r : FetchReply) :
  let '(s', ed', es) := handleUpdate postId user commentId now s ed updateError r in
  (requests es = [] ∧ s' = s ∧ ed' = ed ∧
   (trim (editContent ed) = [] ∨ 1000 < js_length (editContent ed))) ∨
  (requests es = [UpdateContent commentId user (trim (editContent ed)) now] ∧
   trim (editContent ed) ≠ [] ∧ js_length (editContent ed) ≤ 1000 ∧
   (updateError = true ∧ s' = s ∧ ed' = ed ∨
    updateError = false ∧ ed' = mkEditor None [])).
Proof.
  unfold handleUpdate. destruct (trim (editContent ed)) eqn:Et.
  { left. auto. }
  destruct (Z.ltb_spec 1000 (js_length (editContent ed))).
  { left. auto. }
  destruct updateError.
  - right. split; [done|]. split; [done|]. split; [lia|]. left. done.
  - destruct (fetchComments postId user false s r) as [s1 es]. right.
    split; [|split; [done|split; [lia|right; done]]].
    simpl. by rewrite requests_Did.
Qed.

(** X12: [handleDelete] sends nothing and changes nothing when the
    confirmation is declined; when it is confirmed it sends exactly one
    request, which marks the comment as deleted and removes no row.
    [handleLike] sends nothing when nobody is logged in, and otherwise
    exactly one request in the name of the user: it removes the like
    when the comment is liked and inserts one when it is not. *)
Theorem delete_and_like_requests (postId : string) (user : option string)
    (commentId : string) (now : Z) (s : State) (confirmed isLiked failure : bool)
    (r : FetchReply) :
  requests (handleDelete postId user commentId now s confirmed failure r).2
    = (if confirmed then [SoftDelete commentId user now] else []) ∧
  (confirmed = false →
     handleDelete postId user commentId now s confirmed failure r
     = (s, [Confirmed false])) ∧
  requests (handleLike postId user commentId isLiked s failure r).2
    = match user with
      | Some uid => [if isLiked then LikeDelete commentId uid
                     else LikeInsert commentId uid]
      | None => []
      end ∧
  (failure = true →
     (handleDelete postId user commentId now s confirmed failure r).1 = s ∧
     (handleLike postId user commentId isLiked s failure r).1 = s).
Proof.
  unfold handleDelete, handleLike. split; [|split; [|split]].
  - destruct confirmed; [|done]. destruct failure; [done|].
    destruct (fetchComments _ _ _ _ _). simpl. by rewrite requests_Did.
  - by intros ->.
  - destruct user as [uid|]; [|done]. destruct failure; [done|].
    destruct (fetchComments _ _ _ _ _). simpl. by rewrite requests_Did.
  - intros ->. split; [by destruct confirmed|by destruct user].
Qed.

(** ** Relative times *)

Ltac split_units :=
  cbv zeta;
  repeat match goal with
         | |- context [if ?a <? ?b then _ else _] => destruct (Z.ltb_spec a b)
         end;
  try (Z.div_mod_to_equations; lia).

(** X13: [getRelativeTime] of the comment section names the largest
    unit that has passed at least once, with the whole number of such
    units: any number of days from 1, 1 to 23 hours, 1 to 59 minutes.
    Less than a minute, which includes an instant in the future, gives
    the text for just now, as does a date that cannot be read. *)
Theorem relative_time_units (now t : Z) :
  getRelativeTime now None = JustNow ∧
  match getRelativeTime now (Some t) with
  | DaysAgo n => 1 ≤ n ∧ 86400000 * n ≤ now - t < 86400000 * (n + 1)
  | HoursAgo n => 1 ≤ n ≤ 23 ∧ 3600000 * n ≤ now - t < 3600000 * (n + 1)
  | MinutesAgo n => 1 ≤ n ≤ 59 ∧ 60000 * n ≤ now - t < 60000 * (n + 1)
  | JustNow => now - t < 60000
  | YearsAgo _ | MonthsAgo _ => False
  end.
Proof. split; [done|]. unfold getRelativeTime. split_units. Qed.

(** X14: [getRelativeTime] of the main page counts years of 365 days
    and months of 30 days.  Days 360 to 364 give 12 months: the months
    run from 1 to 12 before the first year is reached. *)
Theorem main_page_relative_time_units (now t : Z) :
  match MainPage.getRelativeTime now (Some t) with
  | YearsAgo n => 1 ≤ n ∧ 31536000000 * n ≤ now - t < 31536000000 * (n + 1)
  | MonthsAgo n => 1 ≤ n ≤ 12 ∧ 2592000000 * n ≤ now - t < 2592000000 * (n + 1)
                   ∧ now - t < 31536000000
  | DaysAgo n => 1 ≤ n ≤ 29 ∧ 86400000 * n ≤ now - t < 86400000 * (n + 1)
  | HoursAgo n => 1 ≤ n ≤ 23 ∧ 3600000 * n ≤ now - t < 3600000 * (n + 1)
  | MinutesAgo n => 1 ≤ n ≤ 59 ∧ 60000 * n ≤ now - t < 60000 * (n + 1)
  | JustNow => now - t < 60000
  end ∧
  (31104000000 ≤ now - t < 31536000000 →
   MainPage.getRelativeTime now (Some t) = MonthsAgo 12).
Proof.
  unfold MainPage.getRelativeTime. split.
  - split_units.
  - intros Hd. split_units. f_equal. Z.div_mod_to_equations. lia.
Qed.

(** X15: the two [getRelativeTime] give the same text for everything
    younger than 30 days; from 30 days on the comment section keeps
    counting days where the main page counts months and years. *)
Theorem relative_times_agree (now : Z) (date : option Z) :
  (∀ t, date = Some t → now - t < 2592000000) →
  MainPage.getRelativeTime now date = getRelativeTime now date.
Proof.
  destruct date as [t|]; [|done]. intros H. specialize (H t eq_refl).
  unfold MainPage.getRelativeTime, getRelativeTime. split_units; done.
Qed.

(** ** The main page *)

Section SortByKey.
Context {A : Type} (key : A → Z).

Lemma insert_by_key_perm x l : insert_by_key key x l ≡ₚ x :: l.
Proof.
  induction l as [|y l IH]; simpl; [done|].
  case_match; [|done]. rewrite IH. apply Permutation_swap.
Qed.

Lemma sort_by_key_perm l : sort_by_key key l ≡ₚ l.
Proof.
  induction l as [|x l IH]; simpl; [done|].
  by rewrite insert_by_key_perm, IH.
Qed.

Lemma insert_by_key_sorted x l :
  StronglySorted (λ a b, key b ≤ key a) l →
  StronglySorted (λ a b, key b ≤ key a) (insert_by_key key x l).
Proof.
  induction l as [|y l IH]; simpl; intros Hs; [repeat constructor|].
  apply StronglySorted_inv in Hs as [Hs Hy].
  destruct (Z.ltb_spec 0 (key y - key x)).
  - constructor; [by apply IH|].
    rewrite insert_by_key_perm. constructor; [lia|done].
  - constructor; [by constructor|]. constructor; [lia|].
    eapply Forall_impl; [exact Hy|]. simpl. intros; lia.
Qed.

Lemma sort_by_key_sorted l : StronglySorted (λ a b, key b ≤ key a) (sort_by_key key l).
Proof.
  induction l as [|x l IH]; simpl; [constructor|]. by apply insert_by_key_sorted.
Qed.
End SortByKey.

(** X16: [fetchPosts] shows every fetched post once, with its counts
    of likes and comments filled in (0 where the backend gives none).
    In the popular order the posts run from the highest score down,
    the score being the likes plus twice the comments; in the latest
    order the client keeps the order of the backend, which it asked to
    order by date.  When the query fails the posts shown before stay. *)
Theorem fetchPosts_order (sortBy : MainPage.SortOption) (posts : list MainPage.Post)
    (r : MainPage.PostsReply) :
  let res := MainPage.fetchPosts sortBy posts r in
  let fetched := MainPage.with_counts r <$> default [] (MainPage.posts_data r) in
  (∀ p, MainPage.score (MainPage.with_counts r p)
        = default 0 (MainPage.likes_of r (MainPage.id p))
          + 2 * default 0 (MainPage.comments_of r (MainPage.id p))) ∧
  if MainPage.posts_error r
  then MainPage.shown res = posts ∧ MainPage.failed res = true
  else MainPage.failed res = false ∧
       MainPage.shown res ≡ₚ fetched ∧
       match sortBy with
       | MainPage.popular =>
           MainPage.ordered_by_backend res = false ∧
           StronglySorted (λ a b, MainPage.score b ≤ MainPage.score a)
             (MainPage.shown res)
       | MainPage.latest =>
           MainPage.ordered_by_backend res = true ∧ MainPage.shown res = fetched
       end.
Proof.
  simpl. split; [intros p; unfold MainPage.score; simpl; lia|].
  unfold MainPage.fetchPosts. destruct (MainPage.posts_error r); [done|].
  simpl. split; [done|]. destruct sortBy; simpl.
  - done.
  - split; [apply sort_by_key_perm|]. split; [done|apply sort_by_key_sorted].
Qed.

(** X17: for the indices the card list passes, which start at 0,
    [getGradient] always finds a class, and cards six apart share it;
    a negative index that is no multiple of 6 finds none. *)
Theorem getGradient_in_range (index : Z) :
  (0 ≤ index →
     (∃ g, MainPage.getGradient index = Some g ∧ g ∈ MainPage.gradients) ∧
     MainPage.getGradient (index + 6) = MainPage.getGradient index) ∧
  (index < 0 → Z.rem index 6 ≠ 0 → MainPage.getGradient index = None).
Proof.
  unfold MainPage.getGradient.
  change (Z.of_nat (length MainPage.gradients)) with 6. split.
  - intros Hi.
    assert (Hr : 0 ≤ Z.rem index 6 < 6) by (apply Z.rem_bound_pos; lia).
    assert (Hp : Z.rem (index + 6) 6 = Z.rem index 6).
    { rewrite !Z.rem_mod_nonneg by lia.
      replace (index + 6) with (index + 1 * 6) by lia. by rewrite Z_mod_plus_full. }
    rewrite Hp. split; [|done].
    destruct (Z.ltb_spec (Z.rem index 6) 0); [lia|].
    destruct (lookup_lt_is_Some_2 MainPage.gradients (Z.to_nat (Z.rem index 6)))
      as [g Hg]; [simpl; lia|].
    exists g. split; [done|]. by eapply list_elem_of_lookup_2.
  - intros Hi Hne.
    assert (Z.rem index 6 ≤ 0) by (apply Z.rem_nonpos; lia).
    destruct (Z.ltb_spec (Z.rem index 6) 0); [done|lia].
Qed.

(** ** The further theorems at concrete inputs *)

Lemma forest_nodes_from_input_witness :
  mk "D" (Some "C") 400 ∈ chain_newest_first ∧ 0 ≤ 1 ≤ 2.
Proof.
  destruct (forest_nodes_from_input chain_newest_first 4) as (F & HF & Hn).
  apply (Hn (mk "D" (Some "C") 400) 1).
  vm_compute in HF. injection HF as <-.
  unfold forest_nodes. simpl. do 3 right. left.
Defined.

Lemma replies_first_nest_under_parent_witness :
  ∃ F, organized 4 chain_newest_first = Some F ∧
       ∀ t r, t ∈ F ≫= subtrees → r ∈ node_replies t →
         node_depth r = 1 ∧ parent_id (node_comment r) = Some (id (node_comment t)).
Proof.
  apply (replies_first_nest_under_parent chain_newest_first 4).
  - apply (bool_decide_unpack _). vm_compute. exact I.
  - vm_compute. reflexivity.
Defined.

Lemma parents_first_depth_is_chain_length_witness :
  ∃ F, organized 4 chain_oldest_first = Some F ∧
       ∀ c d, (c, d) ∈ forest_nodes F →
         d = Z.min 2 (chain_length (length chain_oldest_first) chain_oldest_first c).
Proof.
  apply (parents_first_depth_is_chain_length chain_oldest_first 4).
  - apply (bool_decide_unpack _). vm_compute. exact I.
  - vm_compute. reflexivity.
Defined.

Lemma inserted_rows_are_trimmed_witness :
  ∃ ws1 ws2, newComment padded_draft = ws1 ++ [104; 105]%N ++ ws2 ∧
             all_space ws1 ∧ all_space ws2 ∧ trimmed [104; 105]%N ∧
             [104; 105]%N ≠ [] ∧ js_length [104; 105]%N ≤ 1000.
Proof.
  apply (inserted_rows_are_trimmed "post-1" (Some "user-1") "parent" padded_draft
           false (answer []) (mkRow "post-1" "user-1" [104; 105]%N None)).
  vm_compute. left.
Defined.

Lemma reply_button_then_submit_witness :
  ∃ es, (handleReplySubmit "post-1" (Some "user-1") "parent"
           (handleReplyClick "parent" [98; 111; 98]%N start) false (answer [])).2
        = Insert (mkRow "post-1" "user-1"
                    (64%N :: reverse (trim_start (reverse [98; 111; 98]%N)))
                    (Some "parent")) :: es.
Proof.
  apply (reply_button_then_submit "post-1" "user-1" "parent" [98; 111; 98]%N start
           false (answer [])).
  vm_compute. discriminate.
Defined.

Lemma submit_leaves_form_usable_witness :
  submitting (handleSubmit "post-1" (Some "user-1") padded_draft true (answer [])).1
  = false.
Proof.
  apply (submit_leaves_form_usable "post-1" (Some "user-1") "parent" padded_draft
           true (answer [])).
  reflexivity.
Defined.

Lemma loadMore_lags_one_page_witness :
  (fetchComments "post-1" None false start (answer page_one)).2
    ++ (loadMore_clicks "post-1" None
          (fetchComments "post-1" None false start (answer page_one)).1
          [answer page_one; answer page_two]).2
  = Select "post-1" 0 19
      :: ((λ k, Select "post-1" (20 * Z.of_nat k) (20 * Z.of_nat k + 19))
            <$> seq 0 2).
Proof.
  apply (loadMore_lags_one_page "post-1" None start (answer page_one)
           [answer page_one; answer page_two]).
  - reflexivity.
  - reflexivity.
  - repeat constructor.
Defined.

Lemma fresh_load_likes_witness :
  (is_deleted (set_deleted true (mk "x" None 100)) = true →
   likes_count (set_deleted true (mk "x" None 100)) = 0 ∧
   is_liked (set_deleted true (mk "x" None 100)) = false) ∧
  (Some "user-1" = None → is_liked (set_deleted true (mk "x" None 100)) = false).
Proof.
  apply (fresh_load_likes "post-1" (Some "user-1") start (busy_answer deleted_page) 2
           (set_deleted true (mk "x" None 100)) 0).
  - reflexivity.
  - vm_compute. left.
Defined.

Lemma header_counts_top_level_witness :
  headerCount (fetchComments "post-1" None false start
                 (answer (page_two ++ page_one))).1
  = (0 + length (filter (is_top (page_two ++ page_one)) (page_two ++ page_one)))%nat.
Proof.
  apply (header_counts_top_level "post-1" None false start
           (answer (page_two ++ page_one))).
  reflexivity.
Defined.

Lemma delete_and_like_requests_witness :
  handleDelete "post-1" (Some "user-1") "x" 500 start false false (answer [])
  = (start, [Confirmed false]).
Proof.
  apply (delete_and_like_requests "post-1" (Some "user-1") "x" 500 start false
           true false (answer [])).
  reflexivity.
Defined.

Lemma main_page_relative_time_units_witness :
  MainPage.getRelativeTime 31200000000 (Some 0) = MonthsAgo 12.
Proof.
  apply (main_page_relative_time_units 31200000000 0). lia.
Defined.

Lemma relative_times_agree_witness :
  MainPage.getRelativeTime 90000000 (Some 0) = getRelativeTime 90000000 (Some 0).
Proof.
  apply (relative_times_agree 90000000 (Some 0)).
  intros t [= <-]. lia.
Defined.

Lemma getGradient_in_range_witness :
  (∃ g, MainPage.getGradient 7 = Some g ∧ g ∈ MainPage.gradients) ∧
  MainPage.getGradient (7 + 6) = MainPage.getGradient 7.
Proof.
  apply (getGradient_in_range 7). lia.
Defined.
